(** * Portfolio site client logic (js/main.js): a shallow embedding

  The development follows the layout of [class PortfolioApp]: JavaScript
  strings and the pattern matcher used by the contact form, the field and
  form validators, the theme store, the project gallery loader, the contact
  submission handler, the navigation highlighter and finally the frame
  scheduler shared by the scroll throttle and the particle scene. *)

From Stdlib Require Import ZArith NArith Ascii String List Bool Lia.
From stdpp Require Import base decidable option list gmap strings.
Import ListNotations.

Local Open Scope N_scope.

(* ===================================================================== *)
(** ** JavaScript strings *)
(* ===================================================================== *)

Module JsString.

(** A JavaScript string is a sequence of UTF-16 code units. *)
Definition code_unit := N.
Definition jsstring := list code_unit.

(** Source literals are plain ASCII; [lit] turns one into code units. *)
Definition lit (s : string) : jsstring :=
  map N_of_ascii (list_ascii_of_string s).

(** ECMAScript WhiteSpace and LineTerminator code points: the characters
    removed by [String.prototype.trim] and matched by the class [\s]. *)
Definition is_js_space (c : code_unit) : bool :=
  (c =? 0x09) || (c =? 0x0A) || (c =? 0x0B) || (c =? 0x0C) || (c =? 0x0D)
  || (c =? 0x20) || (c =? 0xA0) || (c =? 0x1680)
  || ((0x2000 <=? c) && (c <=? 0x200A))
  || (c =? 0x2028) || (c =? 0x2029) || (c =? 0x202F) || (c =? 0x205F)
  || (c =? 0x3000) || (c =? 0xFEFF).

Fixpoint trimStart (s : jsstring) : jsstring :=
  match s with
  | [] => []
  | c :: s' => if is_js_space c then trimStart s' else s
  end.

Definition trimEnd (s : jsstring) : jsstring := rev (trimStart (rev s)).

(** [s.trim()] *)
Definition trim (s : jsstring) : jsstring := trimEnd (trimStart s).

(** ToBoolean on a string: only the empty string is falsy. *)
Definition truthy (s : jsstring) : bool :=
  match s with [] => false | _ :: _ => true end.

(** A string made of whitespace only (the empty string included). *)
Definition all_space (s : jsstring) : Prop :=
  Forall (fun c => is_js_space c = true) s.

End JsString.
Export JsString.

(* ===================================================================== *)
(** ** Regular expressions over code units *)
(* ===================================================================== *)

Module Regex.

(** The fragment of the pattern language the source uses: character
    classes, concatenation and [+] (with alternation and [*] to close the
    derivative construction).  A pattern written [/^...$/] without flags is
    matched against the whole string, code unit by code unit. *)
Inductive regex : Type :=
| RNone
| REps
| RClass (p : code_unit -> bool)
| RSeq (r1 r2 : regex)
| RAlt (r1 r2 : regex)
| RStar (r : regex).

Definition RPlus (r : regex) : regex := RSeq r (RStar r).

(** Declarative meaning of a pattern. *)
Inductive matches : regex -> jsstring -> Prop :=
| MEps : matches REps []
| MClass p c : p c = true -> matches (RClass p) [c]
| MSeq r1 r2 s1 s2 : matches r1 s1 -> matches r2 s2 -> matches (RSeq r1 r2) (s1 ++ s2)
| MAltL r1 r2 s : matches r1 s -> matches (RAlt r1 r2) s
| MAltR r1 r2 s : matches r2 s -> matches (RAlt r1 r2) s
| MStarNil r : matches (RStar r) []
| MStarCons r s1 s2 : matches r s1 -> matches (RStar r) s2 -> matches (RStar r) (s1 ++ s2).

Fixpoint nullable (r : regex) : bool :=
  match r with
  | RNone => false
  | REps => true
  | RClass _ => false
  | RSeq r1 r2 => nullable r1 && nullable r2
  | RAlt r1 r2 => nullable r1 || nullable r2
  | RStar _ => true
  end.

Fixpoint deriv (c : code_unit) (r : regex) : regex :=
  match r with
  | RNone => RNone
  | REps => RNone
  | RClass p => if p c then REps else RNone
  | RSeq r1 r2 =>
      if nullable r1 then RAlt (RSeq (deriv c r1) r2) (deriv c r2)
      else RSeq (deriv c r1) r2
  | RAlt r1 r2 => RAlt (deriv c r1) (deriv c r2)
  | RStar r1 => RSeq (deriv c r1) (RStar r1)
  end.

(** [regex.test(s)] for a fully anchored pattern. *)
Fixpoint test (r : regex) (s : jsstring) : bool :=
  match s with
  | [] => nullable r
  | c :: s' => test (deriv c r) s'
  end.

End Regex.
Export Regex.

(* ===================================================================== *)
(** ** Document elements *)
(* ===================================================================== *)

Module Dom.

(** An element as far as the scripts look at it: its class token list and
    its text content. *)
Record element := mkElement {
  classList : gset string;
  textContent : jsstring
}.

(** [classList.add], [classList.remove], [classList.contains] *)
Definition add (tok : string) (e : element) : element :=
  mkElement ({[tok]} ∪ classList e) (textContent e).

Definition remove (tok : string) (e : element) : element :=
  mkElement (classList e ∖ {[tok]}) (textContent e).

Definition contains (tok : string) (e : element) : bool :=
  bool_decide (tok ∈ classList e).

Definition set_textContent (t : jsstring) (e : element) : element :=
  mkElement (classList e) t.

Inductive tag := Input | Textarea.

(** A form control ([input] or [textarea]) of the contact form. [node] is
    the control seen as an element; [nextElementSibling] is the element
    that follows it in its parent, if any (a label or feedback element,
    not itself a control). *)
Record control := mkControl {
  tagName : tag;
  type : string;
  required : bool;
  name : string;
  id : string;
  value : jsstring;
  defaultValue : jsstring;
  node :> element;
  nextElementSibling : option element
}.

Definition with_node (f : control) (e : element) : control :=
  mkControl (tagName f) (type f) (required f) (name f) (id f) (value f)
          (defaultValue f) e (nextElementSibling f).

Definition with_sibling (f : control) (s : option element) : control :=
  mkControl (tagName f) (type f) (required f) (name f) (id f) (value f)
          (defaultValue f) (node f) s.

Definition with_value (f : control) (v : jsstring) : control :=
  mkControl (tagName f) (type f) (required f) (name f) (id f) v
          (defaultValue f) (node f) (nextElementSibling f).

End Dom.
Export Dom.

(* ===================================================================== *)
(** ** Contact form validation *)
(* ===================================================================== *)

Module Validation.

(** [[^\s@]] *)
Definition not_space_at (c : code_unit) : bool :=
  negb (is_js_space c || (c =? 0x40)).

Definition is_unit (k : code_unit) (c : code_unit) : bool := c =? k.

(** [/^[^\s@]+@[^\s@]+\.[^\s@]+$/] *)
Definition emailRegex : regex :=
  RSeq (RPlus (RClass not_space_at))
    (RSeq (RClass (is_unit 0x40))
      (RSeq (RPlus (RClass not_space_at))
        (RSeq (RClass (is_unit 0x2E))
          (RPlus (RClass not_space_at))))).

(** What the pattern asks of a string: [local@domain.tail], the three
    parts non-empty and free of whitespace and of [@]. *)
Definition email_shape (s : jsstring) : Prop :=
  exists l d t,
    s = l ++ 0x40 :: d ++ 0x2E :: t /\ l <> [] /\ d <> [] /\ t <> [] /\
    Forall (fun c => not_space_at c = true) (l ++ d ++ t).

Definition msg_required : jsstring := lit "This field is required.".
Definition msg_email : jsstring := lit "Please enter a valid email address.".

(** The locals [isValid] and [message] of [validateField] once its first
    conditional (lines 298-307) has run. *)
Definition validateField_verdict (field : control) : bool * jsstring :=
  let value := trim (value field) in
  if required field && negb (truthy value) then (false, msg_required)
  else if String.eqb (type field) "email" && truthy value then
    if negb (test emailRegex value) then (false, msg_email)
    else (true, [])
  else (true, []).

(** The feedback branch: the message is written only to a next sibling
    that carries the class [invalid-feedback]. *)
Definition write_feedback (message : jsstring) (fb : option element) : option element :=
  match fb with
  | Some feedback =>
      if contains "invalid-feedback" feedback
      then Some (set_textContent message feedback)
      else Some feedback
  | None => None
  end.

(** [validateField(field)]: the returned flag and the field as the call
    leaves it. *)
Definition validateField (field : control) : bool * control :=
  let '(isValid, message) := validateField_verdict field in
  if isValid then
    (isValid, with_node field (add "is-valid" (remove "is-invalid" field)))
  else
    let field1 := with_node field (add "is-invalid" (remove "is-valid" field)) in
    (isValid, with_sibling field1 (write_feedback message (nextElementSibling field1))).

(** The selector [input[required], textarea[required]]. *)
Definition required_control (f : control) : bool :=
  match tagName f with
  | Input => required f
  | Textarea => required f
  end.

(** The [inputs.forEach] loop of [validateForm]; [isValid] is the flag the
    callback closes over. The form is the list of its controls in document
    order. *)
Fixpoint validateForm_each (inputs : list control) (isValid : bool) : bool * list control :=
  match inputs with
  | [] => (isValid, [])
  | input :: rest =>
      if required_control input then
        let '(ok, input') := validateField input in
        let isValid' := if negb ok then false else isValid in
        let '(r, rest') := validateForm_each rest isValid' in
        (r, input' :: rest')
      else
        let '(r, rest') := validateForm_each rest isValid in
        (r, input :: rest')
  end.

Definition validateForm (form : list control) : bool * list control :=
  validateForm_each form true.

(** What one turn of that loop does to a control. *)
Definition validated (f : control) : control :=
  if required_control f then snd (validateField f) else f.

End Validation.
Export Validation.

(* ===================================================================== *)
(** ** Theme store *)
(* ===================================================================== *)

Module Theme.

Inductive timer := ClearBodyTransition.

(** What the theme code reads and writes: the app's [currentTheme], the
    [data-theme] attribute of the root element, the local storage area, the
    class names of the toggle icons, the body's transition style and the
    pending [setTimeout] calls (delay in ms). *)
Record store := mkStore {
  currentTheme : string;
  data_theme : option string;
  localStorage : gmap string string;
  themeIcons : list string;
  bodyTransition : string;
  timeouts : list (nat * timer)
}.

Definition theme_key : string := "portfolio-theme".

(** [localStorage.getItem(k) || 'dark']: a missing item is [null] and an
    empty string is falsy. *)
Definition getItem_or_dark (ls : gmap string string) : string :=
  match ls !! theme_key with
  | Some s => if String.eqb s "" then "dark" else s
  | None => "dark"
  end.

Definition setTheme (theme : string) (st : store) : store :=
  mkStore theme (Some theme) (<[theme_key := theme]> (localStorage st))
          (map (fun _ => if String.eqb theme "dark" then "bi bi-sun"
                         else "bi bi-moon-stars") (themeIcons st))
          (bodyTransition st) (timeouts st).

Definition toggleTheme (st : store) : store :=
  let newTheme := if String.eqb (currentTheme st) "dark" then "light" else "dark" in
  let st1 := setTheme newTheme st in
  mkStore (currentTheme st1) (data_theme st1) (localStorage st1) (themeIcons st1)
          "all 0.3s ease" (timeouts st1 ++ [(300%nat, ClearBodyTransition)]).

Definition setupTheme (st : store) : store :=
  let savedTheme := getItem_or_dark (localStorage st) in
  setTheme savedTheme st.

(** The store as the constructor leaves it, over a given storage area. *)
Definition fresh (ls : gmap string string) (icons : list string) : store :=
  mkStore "dark" None ls icons "" [].

End Theme.
Export Theme.

(* ===================================================================== *)
(** ** Project gallery *)
(* ===================================================================== *)

Module Projects.

Local Set Warnings "-register-all".

(** Values produced by [response.json()]. A number keeps its lexeme; the
    gallery code never inspects it. *)
Inductive json :=
| JNull
| JBool (b : bool)
| JNum (lexeme : string)
| JStr (s : jsstring)
| JArr (items : list json)
| JObj (members : list (string * json)).

Inductive exn := TypeError | FetchError | SyntaxError.

(** Property read [v.key]; [inl None] is [undefined]. Reading a property
    of [null] throws. In an object the last member of that name wins. *)
Fixpoint get_member (key : string) (ms : list (string * json)) : option json :=
  match ms with
  | [] => None
  | (k, v) :: rest =>
      match get_member key rest with
      | Some v' => Some v'
      | None => if String.eqb k key then Some v else None
      end
  end.

Definition get (v : json) (key : string) : option json + exn :=
  match v with
  | JNull => inr TypeError
  | JObj ms => inl (get_member key ms)
  | _ => inl None
  end.

(** A gallery card: the column element built by [createProjectCard]. Its
    markup is the fixed template of the source instantiated with the four
    values read from the project, kept here as read; the entrance delay is
    [index * 0.1] seconds, kept as the index. *)
Record card := mkCard {
  className : string;
  image : option json;
  title : option json;
  live : option json;
  description : option json;
  animationDelay_index : nat
}.

(** Whether ToString throws on a parsed value. Parsed data holds no
    function, so an object with a member named [toString] has no callable
    [toString], and its [valueOf] (its own member, or the inherited one that
    returns the object) yields no primitive: a TypeError. An array is joined,
    each element that is not [null] converted in turn. Everything else
    converts. *)
Fixpoint tostring_throws (v : json) : bool :=
  match v with
  | JObj ms => existsb (fun m => String.eqb (fst m) "toString") ms
  | JArr items =>
      existsb (fun x => match x with JNull => false | _ => tostring_throws x end) items
  | _ => false
  end.

(** A value a template literal can interpolate; [undefined] always is. *)
Definition printable (v : option json) : bool :=
  match v with
  | Some x => negb (tostring_throws x)
  | None => true
  end.

Definition createProjectCard (project : json) (index : nat) : card + exn :=
  match get project "image", get project "title", get project "live",
        get project "description" with
  | inl i, inl t, inl l, inl d =>
      if printable i && printable t && printable l && printable d
      then inl (mkCard "col-lg-4 col-md-6 mb-4" i t l d index)
      else inr TypeError
  | _, _, _, _ => inr TypeError
  end.

(** A project that [createProjectCard] turns into a card: it is not
    [null], and the four values read from it convert to text. *)
Definition presentable (project : json) : Prop :=
  project <> JNull /\
  forall key v, In key ["image"; "title"; "live"; "description"] ->
    get project key = inl (Some v) -> tostring_throws v = false.

Inductive completion := Normal | Throw (e : exn).

(** The gallery state: [this.projects], the children of the element
    [#projects-container], and what was passed to [console.error]. *)
Record gallery := mkGallery {
  projects : json;
  container : list card;
  console_errors : list exn
}.

(** [this.projects.forEach((project, index) => ...)] over an array. *)
Fixpoint render_each (ps : list json) (index : nat) (g : gallery) : completion * gallery :=
  match ps with
  | [] => (Normal, g)
  | project :: rest =>
      match createProjectCard project index with
      | inl projectCard =>
          render_each rest (S index)
            (mkGallery (projects g) (container g ++ [projectCard]) (console_errors g))
      | inr e => (Throw e, g)
      end
  end.

Definition renderProjects (g : gallery) : completion * gallery :=
  let g1 := mkGallery (projects g) [] (console_errors g) in
  match projects g1 with
  | JArr ps => render_each ps 0%nat g1
  | _ => (Throw TypeError, g1)
  end.

Definition project (t i d l : string) : json :=
  JObj [("title", JStr (lit t)); ("image", JStr (lit i));
        ("description", JStr (lit d)); ("live", JStr (lit l))].

Definition fallbackProjects : list json :=
  [ project "JAVA IN MY STYLE" "./java.png"
      "Deep learning model for image classification using TensorFlow and CNN architecture."
      "https://techinmystyle.com/java%20in%20my%20style/";
    project "JAVASCRIPT INTERMEDIATE IN MY STYLE" "./JAVASCRIPT.png"
      "Interactive dashboard for data visualization and analytics using Python and Streamlit."
      "https://techinmystyle.com/javascript%20in%20my%20style%20-%20intermediate/";
    project "ML IN MY STYLE" "./ml.png"
      "Real-time object detection and recognition using OpenCV and YOLO algorithm."
      "https://techinmystyle.com/ml%20in%20my%20style/";
    project "AI IN MY STYLE" "./ai.png"
      "Real-time object detection and recognition using OpenCV and YOLO algorithm."
      "https://techinmystyle.com/ai%20in%20my%20style/" ].

(** The card expected for a built-in project at a given position. *)
Definition fallback_card (t i d l : string) (index : nat) : card :=
  mkCard "col-lg-4 col-md-6 mb-4" (Some (JStr (lit i))) (Some (JStr (lit t)))
         (Some (JStr (lit l))) (Some (JStr (lit d))) index.

Definition renderFallbackProjects (g : gallery) : completion * gallery :=
  renderProjects (mkGallery (JArr fallbackProjects) (container g) (console_errors g)).

(** How [fetch('data/projects.json')] followed by [response.json()] ends:
    the fetch rejects, the body fails to parse, or a value comes back. *)
Inductive fetched :=
| FetchRejected
| JsonRejected
| Parsed (v : json).

Definition on_catch (error : exn) (g : gallery) : completion * gallery :=
  renderFallbackProjects
    (mkGallery (projects g) (container g) (console_errors g ++ [error])).

Definition loadProjects (r : fetched) (g : gallery) : completion * gallery :=
  match r with
  | FetchRejected => on_catch FetchError g
  | JsonRejected => on_catch SyntaxError g
  | Parsed v =>
      match renderProjects (mkGallery v (container g) (console_errors g)) with
      | (Normal, g') => (Normal, g')
      | (Throw error, g') => on_catch error g'
      end
  end.

End Projects.
Export Projects.

(* ===================================================================== *)
(** ** Contact form submission *)
(* ===================================================================== *)

Module Contact.

(** *** [encodeURIComponent] *)

Definition in_range (lo hi c : N) : bool := (lo <=? c) && (c <=? hi).

(** Characters left as they are: letters, digits and [-_.!~*'()]. *)
Definition uri_unreserved (c : N) : bool :=
  in_range 0x41 0x5A c || in_range 0x61 0x7A c || in_range 0x30 0x39 c
  || (c =? 0x2D) || (c =? 0x5F) || (c =? 0x2E) || (c =? 0x21) || (c =? 0x7E)
  || (c =? 0x2A) || (c =? 0x27) || (c =? 0x28) || (c =? 0x29).

Definition hex_digit (d : N) : code_unit :=
  if d <? 10 then 0x30 + d else 0x41 + (d - 10).

Definition percent (octet : N) : jsstring :=
  [0x25; hex_digit (octet / 16); hex_digit (octet mod 16)].

Definition utf8 (cp : N) : list N :=
  if cp <? 0x80 then [cp]
  else if cp <? 0x800 then [0xC0 + cp / 0x40; 0x80 + cp mod 0x40]
  else if cp <? 0x10000 then
    [0xE0 + cp / 0x1000; 0x80 + (cp / 0x40) mod 0x40; 0x80 + cp mod 0x40]
  else
    [0xF0 + cp / 0x40000; 0x80 + (cp / 0x1000) mod 0x40;
     0x80 + (cp / 0x40) mod 0x40; 0x80 + cp mod 0x40].

Definition encode_point (cp : N) : jsstring :=
  if uri_unreserved cp then [cp] else concat (map percent (utf8 cp)).

(** [None] is the [URIError] thrown on an unpaired surrogate. *)
Fixpoint encodeURIComponent (s : jsstring) : option jsstring :=
  match s with
  | [] => Some []
  | c :: rest =>
      if in_range 0xDC00 0xDFFF c then None
      else if in_range 0xD800 0xDBFF c then
        match rest with
        | d :: rest' =>
            if in_range 0xDC00 0xDFFF d then
              option_map
                (app (encode_point ((c - 0xD800) * 0x400 + (d - 0xDC00) + 0x10000)))
                (encodeURIComponent rest')
            else None
        | [] => None
        end
      else option_map (app (encode_point c)) (encodeURIComponent rest)
  end.

(** *** The page around the form *)

Inductive timer := Navigate (url : jsstring).

(** Happenings a visitor can observe, in the order they occur. *)
Inductive event :=
| ToastShown
| FormReset
| DecorationsCleared
| Navigated (url : jsstring).

Inductive exn := TypeError | URIError.
Inductive completion := Normal | Throw (e : exn).

(** An element of the document that is not a control of the contact form,
    as [getElementById] and the read of [.value] see it: its id, its
    [value] property ([None] for [undefined], as on a [div]) and the number
    of controls of the form that come before it in document order. Among
    elements with the same number, list order is document order. *)
Record other := mkOther {
  other_id : string;
  other_value : option jsstring;
  before : nat
}.

(** The contact form (its controls in document order), the other elements
    of the document that have an id, whether the toast [#contactToast] is
    showing, [window.location.href], the pending [setTimeout] calls with the
    milliseconds left, and the log of observable happenings. *)
Record page := mkPage {
  form : list control;
  elsewhere : list other;
  toast : bool;
  location_href : jsstring;
  timeouts : list (nat * timer);
  log : list event
}.

(** The values of a [FormData] are scalar value strings: on the way in,
    every surrogate that is not part of a pair becomes U+FFFD. *)
Fixpoint to_scalar (s : jsstring) : jsstring :=
  match s with
  | [] => []
  | c :: rest =>
      if in_range 0xDC00 0xDFFF c then 0xFFFD :: to_scalar rest
      else if in_range 0xD800 0xDBFF c then
        match rest with
        | d :: rest' =>
            if in_range 0xDC00 0xDFFF d then c :: d :: to_scalar rest'
            else 0xFFFD :: to_scalar rest
        | [] => [0xFFFD]
        end
      else c :: to_scalar rest
  end.

(** [formData.get(n)]: the value, as a scalar value string, of the first
    control of the form with that name; [None] for [null]. *)
Definition formData_get (n : string) (form : list control) : option jsstring :=
  (fun f => to_scalar (value f)) <$> List.find (fun f => String.eqb (name f) n) form.

(** The first control with a given id, with its position in the form. *)
Fixpoint control_by_id (i : string) (k : nat) (form : list control) : option (nat * control) :=
  match form with
  | [] => None
  | f :: rest => if String.eqb (id f) i then Some (k, f) else control_by_id i (S k) rest
  end.

(** The first other element with a given id, in document order. *)
Fixpoint other_by_id (i : string) (os : list other) : option other :=
  match os with
  | [] => None
  | o :: rest =>
      match other_by_id i rest with
      | Some o' =>
          if String.eqb (other_id o) i && (before o <=? before o')%nat then Some o
          else Some o'
      | None => if String.eqb (other_id o) i then Some o else None
      end
  end.

(** [document.getElementById(i)]: the first element of the whole document
    with that id, a control of the form or not; [None] for [null]. *)
Definition getElementById (i : string) (p : page) : option (control + other) :=
  match control_by_id i 0 (form p), other_by_id i (elsewhere p) with
  | Some (k, f), Some o => if (before o <=? k)%nat then Some (inr o) else Some (inl f)
  | Some (k, f), None => Some (inl f)
  | None, Some o => Some (inr o)
  | None, None => None
  end.

(** What a template literal makes of a [.value]: the text itself, or
    [undefined] spelled out. *)
Definition interpolated (v : option jsstring) : jsstring :=
  match v with
  | Some s => s
  | None => lit "undefined"
  end.

(** [formData.get(key) || document.getElementById(key).value], as the text
    the templates of the handler interpolate. *)
Definition entry (key : string) (p : page) : jsstring + exn :=
  match formData_get key (form p) with
  | Some (c :: v) => inl (c :: v)
  | _ =>
      match getElementById key p with
      | Some (inl el) => inl (value el)
      | Some (inr o) => inl (interpolated (other_value o))
      | None => inr TypeError
      end
  end.

Definition subject_text (name : jsstring) : jsstring :=
  lit "Portfolio Contact from " ++ name.

Definition body_text (name email message : jsstring) : jsstring :=
  lit "Name: " ++ name ++ [0x0A] ++ lit "Email: " ++ email ++ [0x0A; 0x0A]
  ++ lit "Message:" ++ [0x0A] ++ message.

Definition mailto (subject body : jsstring) : jsstring :=
  lit "mailto:syed.asadullah@example.com?subject=" ++ subject ++ lit "&body=" ++ body.

(** [form.reset()] *)
Definition reset (form : list control) : list control :=
  map (fun f => with_value f (defaultValue f)) form.

Definition clear_marks (e : element) : element :=
  remove "is-invalid" (remove "is-valid" e).

(** The [querySelectorAll('.is-valid, .is-invalid')] loop over the form's
    descendants: the controls and the elements that follow them. *)
Definition clear_decorations (form : list control) : list control :=
  map (fun f => with_sibling (with_node f (clear_marks f))
                  (clear_marks <$> nextElementSibling f)) form.

Definition handleFormSubmission (p : page) : completion * page :=
  match entry "contactName" p, entry "contactEmail" p,
        entry "contactMessage" p with
  | inl name, inl email, inl message =>
      match encodeURIComponent (subject_text name),
            encodeURIComponent (body_text name email message) with
      | Some subject, Some body =>
          let mailtoLink := mailto subject body in
          (Normal,
           mkPage (clear_decorations (reset (form p)))
                  (elsewhere p)
                  true
                  (location_href p)
                  (timeouts p ++ [(1000%nat, Navigate mailtoLink)])
                  (log p ++ [ToastShown; FormReset; DecorationsCleared]))
      | _, _ => (Throw URIError, p)
      end
  | _, _, _ => (Throw TypeError, p)
  end.

(** The [submit] listener installed by [setupContactForm]. *)
Definition on_submit (p : page) : completion * page :=
  let '(ok, form') := validateForm (form p) in
  let p1 := mkPage form' (elsewhere p) (toast p) (location_href p) (timeouts p)
                   (log p) in
  if ok then handleFormSubmission p1 else (Normal, p1).

Definition run_timer (t : timer) (p : page) : page :=
  match t with
  | Navigate url =>
      mkPage (form p) (elsewhere p) (toast p) url (timeouts p)
             (log p ++ [Navigated url])
  end.

(** [ms] milliseconds pass with no other script running: the timers that
    fall due run, earliest first. *)
Fixpoint insert_due (d : nat * timer) (l : list (nat * timer)) : list (nat * timer) :=
  match l with
  | [] => [d]
  | x :: l' => if (fst x <? fst d)%nat then x :: insert_due d l' else d :: l
  end.

Definition elapse (ms : nat) (p : page) : page :=
  let due := filter (fun d => (fst d <= ms)%nat) (timeouts p) in
  let later := filter (fun d => (ms < fst d)%nat) (timeouts p) in
  let p0 := mkPage (form p) (elsewhere p) (toast p) (location_href p)
                   (map (fun d => ((fst d - ms)%nat, snd d)) later) (log p) in
  fold_left (fun q d => run_timer (snd d) q) (fold_right insert_due [] due) p0.

(** Order of happenings in a log: the first event of one kind comes
    strictly before the first of another. *)
Definition is_reset (e : event) : bool :=
  match e with FormReset => true | _ => false end.

Definition is_navigation (e : event) : bool :=
  match e with Navigated _ => true | _ => false end.

Fixpoint position (k : event -> bool) (l : list event) : option nat :=
  match l with
  | [] => None
  | e :: l' => if k e then Some 0%nat else S <$> position k l'
  end.

Definition happens_before (k1 k2 : event -> bool) (l : list event) : bool :=
  match position k1 l, position k2 l with
  | Some i, Some j => (i <? j)%nat
  | _, _ => false
  end.

(** No validation mark is left on a control or on the element after it. *)
Definition unmarked (f : control) : Prop :=
  ("is-valid" ∉ classList f) /\ ("is-invalid" ∉ classList f) /\
  forall s, nextElementSibling f = Some s ->
            ("is-valid" ∉ classList s) /\ ("is-invalid" ∉ classList s).

(** A filled-in contact form on a page that has just loaded. *)
Definition demo_control (t : tag) (ty key : string) (v : jsstring) : control :=
  mkControl t ty true key key v [] (mkElement ∅ [])
            (Some (mkElement {["invalid-feedback"]} [])).

Definition demo_page : page :=
  mkPage [ demo_control Input "text" "contactName" (lit "Ann Lee");
           demo_control Input "email" "contactEmail" (lit "ann@example.com");
           demo_control Textarea "textarea" "contactMessage" (lit "Hi & bye") ]
         [] false (lit "https://example.com/") [] [].

End Contact.

(* ===================================================================== *)
(** ** Navigation highlighting *)
(* ===================================================================== *)

Module Nav.

(** A [section] element that has an [id]. Lengths are in pixels. *)
Record section_el := mkSection {
  section_id : string;
  offsetTop : Z;
  offsetHeight : Z
}.

(** An element of the page that can carry the marker: whether it is an
    [a] element, its [href] attribute, and its class list. *)
Record anchor := mkAnchor {
  is_a : bool;
  href : option string;
  anchor_node :> element
}.

Record document := mkDocument {
  sections : list section_el;
  elements : list anchor;
  scrollY : Z
}.

(** [document.querySelectorAll('.nav-link').forEach(link => link.classList.remove('active'))] *)
Definition clear_nav_links (els : list anchor) : list anchor :=
  map (fun link : anchor =>
         if contains "nav-link" link
         then mkAnchor (is_a link) (href link) (remove "active" link)
         else link) els.

Definition selects (h : string) (a : anchor) : bool :=
  is_a a && bool_decide (href a = Some h).

(** [document.querySelector(sel)?.classList.add('active')]: the first
    match in document order, nothing when there is none. The selector
    [a[href="#id"]] is read as: an [a] element whose [href] attribute is
    [#id]; this is what the browser makes of it when the id holds no double
    quote, backslash, line break or NUL. *)
Fixpoint add_active_first (h : string) (els : list anchor) : list anchor :=
  match els with
  | [] => []
  | a :: rest =>
      if selects h a
      then mkAnchor (is_a a) (href a) (add "active" a) :: rest
      else a :: add_active_first h rest
  end.

Definition in_span (scrollPos : Z) (s : section_el) : bool :=
  ((offsetTop s <=? scrollPos) && (scrollPos <? offsetTop s + offsetHeight s))%Z.

(** The body of the [sections.forEach] callback. *)
Definition visit_section (scrollPos : Z) (els : list anchor) (s : section_el) : list anchor :=
  if in_span scrollPos s
  then add_active_first ("#" +:+ section_id s) (clear_nav_links els)
  else els.

Definition updateActiveNavItem (d : document) : document :=
  let scrollPos := (scrollY d + 100)%Z in
  mkDocument (sections d)
             (fold_left (visit_section scrollPos) (sections d) (elements d))
             (scrollY d).

End Nav.

(* ===================================================================== *)
(** ** Frame scheduling: scroll throttle and particle scene *)
(* ===================================================================== *)

Module Scene.

(** The two callbacks the script hands to [requestAnimationFrame]. *)
Inductive frame_callback := Animate | ScrollUpdate.

(** The three.js objects built by [initWebGL]: the camera's aspect ratio
    (width over height, kept as the pair), how often its projection matrix
    was updated, the renderer size, the particle rotation (x and y counted
    in increments of 0.001 and 0.002, z as the scroll offset it was
    computed from) and the number of frames drawn. *)
Record three := mkThree {
  aspect : Z * Z;
  projection_updates : nat;
  size : Z * Z;
  rotation_x_steps : nat;
  rotation_y_steps : nat;
  rotation_z_scrolled : Z;
  renders : nat
}.

Record window := mkWindow {
  innerWidth : Z;
  innerHeight : Z;
  pageYOffset : Z;
  hidden : bool;                (* document.hidden *)
  webglSupported : bool;        (* what isWebGLSupported() answers *)
  portfolioApp : bool           (* window.portfolioApp is the app object *)
}.

Record world := mkWorld {
  win : window;
  canvas : option string;       (* #webgl-canvas and its display style *)
  hero : option (option Z);     (* .hero-section and the offset behind its transform *)
  isWebGLEnabled : bool;
  webglScene : option three;
  resize_listener : bool;
  scroll_listener : bool;
  ticking : bool;
  rafQueue : list frame_callback
}.

Definition set_win (x : window) (w : world) : world :=
  mkWorld x (canvas w) (hero w) (isWebGLEnabled w) (webglScene w)
          (resize_listener w) (scroll_listener w) (ticking w) (rafQueue w).
Definition set_canvas (x : option string) (w : world) : world :=
  mkWorld (win w) x (hero w) (isWebGLEnabled w) (webglScene w)
          (resize_listener w) (scroll_listener w) (ticking w) (rafQueue w).
Definition set_hero (x : option (option Z)) (w : world) : world :=
  mkWorld (win w) (canvas w) x (isWebGLEnabled w) (webglScene w)
          (resize_listener w) (scroll_listener w) (ticking w) (rafQueue w).
Definition set_isWebGLEnabled (x : bool) (w : world) : world :=
  mkWorld (win w) (canvas w) (hero w) x (webglScene w)
          (resize_listener w) (scroll_listener w) (ticking w) (rafQueue w).
Definition set_webglScene (x : option three) (w : world) : world :=
  mkWorld (win w) (canvas w) (hero w) (isWebGLEnabled w) x
          (resize_listener w) (scroll_listener w) (ticking w) (rafQueue w).
Definition set_resize_listener (x : bool) (w : world) : world :=
  mkWorld (win w) (canvas w) (hero w) (isWebGLEnabled w) (webglScene w)
          x (scroll_listener w) (ticking w) (rafQueue w).
Definition set_scroll_listener (x : bool) (w : world) : world :=
  mkWorld (win w) (canvas w) (hero w) (isWebGLEnabled w) (webglScene w)
          (resize_listener w) x (ticking w) (rafQueue w).
Definition set_ticking (x : bool) (w : world) : world :=
  mkWorld (win w) (canvas w) (hero w) (isWebGLEnabled w) (webglScene w)
          (resize_listener w) (scroll_listener w) x (rafQueue w).
Definition set_rafQueue (x : list frame_callback) (w : world) : world :=
  mkWorld (win w) (canvas w) (hero w) (isWebGLEnabled w) (webglScene w)
          (resize_listener w) (scroll_listener w) (ticking w) x.

Definition requestAnimationFrame (cb : frame_callback) (w : world) : world :=
  set_rafQueue (rafQueue w ++ [cb]) w.

(** The closure [animate] of [initWebGL]. *)
Definition animate (w : world) : world :=
  if isWebGLEnabled w then
    let w1 := requestAnimationFrame Animate w in
    set_webglScene
      ((fun t => mkThree (aspect t) (projection_updates t) (size t)
                   (S (rotation_x_steps t)) (S (rotation_y_steps t))
                   (rotation_z_scrolled t) (S (renders t))) <$> webglScene w1) w1
  else w.

(** The [resize] listener of [initWebGL]. *)
Definition resize_handler (w : world) : world :=
  if (innerWidth (win w) <=? 768)%Z then
    set_canvas ((fun _ => "none") <$> canvas w) (set_isWebGLEnabled false w)
  else if negb (isWebGLEnabled w) && webglSupported (win w) then
    let dims := (innerWidth (win w), innerHeight (win w)) in
    set_webglScene
      ((fun t => mkThree dims (S (projection_updates t)) dims
                   (rotation_x_steps t) (rotation_y_steps t)
                   (rotation_z_scrolled t) (renders t)) <$> webglScene w)
      (set_canvas ((fun _ => "block") <$> canvas w) (set_isWebGLEnabled true w))
  else w.

Definition initWebGL (w : world) : world :=
  match canvas w with
  | None => w
  | Some _ =>
      let dims := (innerWidth (win w), innerHeight (win w)) in
      let w1 := set_webglScene (Some (mkThree dims 0 dims 0 0 0 0)) w in
      let w2 := animate w1 in
      set_resize_listener true w2
  end.

Definition setupWebGL (w : world) : world :=
  if (768 <? innerWidth (win w))%Z && webglSupported (win w) then
    set_isWebGLEnabled true (initWebGL w)
  else w.

Definition handleScrollEffects (w : world) : world :=
  let scrolled := pageYOffset (win w) in
  let w1 :=
    match hero w with
    | Some _ =>
        if (scrolled <? innerHeight (win w))%Z then set_hero (Some (Some scrolled)) w
        else w
    | None => w
    end in
  match webglScene w1 with
  | Some t =>
      if isWebGLEnabled w1 then
        set_webglScene
          (Some (mkThree (aspect t) (projection_updates t) (size t)
                   (rotation_x_steps t) (rotation_y_steps t) scrolled (renders t))) w1
      else w1
  | None => w1
  end.

Definition setupScrollEffects (w : world) : world :=
  set_scroll_listener true (set_ticking false w).

(** The [scroll] listener of [setupScrollEffects]. *)
Definition scroll_handler (w : world) : world :=
  if negb (ticking w) then set_ticking true (requestAnimationFrame ScrollUpdate w)
  else w.

(** The [visibilitychange] listener at the end of the script. *)
Definition visibility_handler (w : world) : world :=
  if portfolioApp (win w) && isWebGLEnabled w then
    if hidden (win w) then set_isWebGLEnabled false w
    else set_isWebGLEnabled true w
  else w.

Definition run_callback (w : world) (cb : frame_callback) : world :=
  match cb with
  | Animate => animate w
  | ScrollUpdate => set_ticking false (handleScrollEffects w)
  end.

(** What the browser delivers to the page. *)
Inductive event :=
| Scroll (y : Z)
| Resize (width height : Z)
| VisibilityChange (hide : bool)
| Frame.

Definition step (w : world) (e : event) : world :=
  match e with
  | Scroll y =>
      let v := win w in
      let w1 := set_win (mkWindow (innerWidth v) (innerHeight v) y (hidden v)
                           (webglSupported v) (portfolioApp v)) w in
      if scroll_listener w1 then scroll_handler w1 else w1
  | Resize width height =>
      let v := win w in
      let w1 := set_win (mkWindow width height (pageYOffset v) (hidden v)
                           (webglSupported v) (portfolioApp v)) w in
      if resize_listener w1 then resize_handler w1 else w1
  | VisibilityChange hide =>
      let v := win w in
      let w1 := set_win (mkWindow (innerWidth v) (innerHeight v) (pageYOffset v) hide
                           (webglSupported v) (portfolioApp v)) w in
      visibility_handler w1
  | Frame =>
      fold_left run_callback (rafQueue w) (set_rafQueue [] w)
  end.

Definition run (evs : list event) (w : world) : world := fold_left step evs w.

(** The page when the script starts: [new PortfolioApp()] sets
    [isWebGLEnabled = false] and [webglScene = null], and nothing in the
    script assigns [window.portfolioApp]. *)
Definition loaded (width height : Z) (supported : bool)
    (canvas : option string) (hero : bool) : world :=
  mkWorld (mkWindow width height 0 false supported false)
          canvas (if hero then Some None else None)
          false None false false false [].

(** The last two steps of [init]. *)
Definition init_tail (w : world) : world := setupScrollEffects (setupWebGL w).

Definition same_callback (a b : frame_callback) : bool :=
  match a, b with
  | Animate, Animate => true
  | ScrollUpdate, ScrollUpdate => true
  | _, _ => false
  end.

(** How many callbacks of a kind wait for the next frame. *)
Definition pending (cb : frame_callback) (w : world) : nat :=
  length (List.filter (same_callback cb) (rafQueue w)).

(** How many frames the renderer has drawn so far. *)
Definition frames_drawn (w : world) : nat :=
  match webglScene w with
  | Some t => renders t
  | None => 0%nat
  end.

(** Nothing waits to animate and nothing was drawn. *)
Definition still (w : world) : Prop :=
  pending Animate w = 0%nat /\ frames_drawn w = 0%nat.

(** The throttle's guard tells whether a scroll update is waiting: one
    when [ticking], none otherwise. *)
Definition guard_consistent (w : world) : Prop :=
  pending ScrollUpdate w = if ticking w then 1%nat else 0%nat.

End Scene.

(* ===================================================================== *)
(** ** Live re-validation *)
(* ===================================================================== *)

Module Live.

(** The [blur] listener that [setupContactForm] puts on every control. *)
Definition on_blur (input : control) : control :=
  snd (validateField input).

(** The [input] listener: the control is validated again only while it
    carries the invalid mark. *)
Definition on_input (input : control) : control :=
  if contains "is-invalid" input then snd (validateField input) else input.

(** The visitor changes the text of a control; the browser stores the new
    value and then fires [input]. *)
Definition edit (v : jsstring) (input : control) : control :=
  on_input (with_value input v).

End Live.

(* ===================================================================== *)
(** ** Reveal on scroll *)
(* ===================================================================== *)

Module Reveal.

(** An observed element: its class list, the width style of its
    [.progress-bar] descendant when it has one, and its [data-skill]
    attribute. *)
Record target := mkTarget {
  target_node :> element;
  progressBar : option string;
  data_skill : option string
}.

(** A pending [setTimeout]: the delay in ms, the observed element whose bar
    is to be set, and the width text to assign. *)
Record bar_timer := mkBarTimer {
  delay : nat;
  bar_of : nat;
  width : string
}.

(** The observed elements, addressed by position, and the timers. *)
Record stage := mkStage {
  targets : list target;
  timeouts : list bar_timer
}.

(** The template [`${skillLevel}%`]; a missing attribute reads [null]. *)
Definition percent_of (skillLevel : option string) : string :=
  match skillLevel with
  | Some s => s +:+ "%"
  | None => "null%"
  end.

(** [animateSkillBar(skillItem)], for the element at position [i]. *)
Definition animateSkillBar (i : nat) (skillItem : target) (st : stage) : stage :=
  match progressBar skillItem with
  | Some _ =>
      mkStage (targets st)
              (timeouts st ++ [mkBarTimer 300 i (percent_of (data_skill skillItem))])
  | None => st
  end.

(** An [IntersectionObserverEntry]: [isIntersecting] and the position of
    [target] among the observed elements. *)
Record entry := mkEntry {
  isIntersecting : bool;
  target_of : nat
}.

(** [entry.target.classList.add('fade-in-up')] *)
Definition revealed (t : target) : target :=
  mkTarget (add "fade-in-up" t) (progressBar t) (data_skill t).

(** The body of the [entries.forEach] callback. *)
Definition reveal (st : stage) (e : entry) : stage :=
  if isIntersecting e then
    match (targets st !! target_of e : option target) with
    | Some t =>
        let t' := revealed t in
        let st' := mkStage (<[target_of e := t']> (targets st)) (timeouts st) in
        if contains "skill-item" t' then animateSkillBar (target_of e) t' st'
        else st'
    | None => st
    end
  else st.

(** The observer callback of [setupAnimations]. *)
Definition observe (entries : list entry) (st : stage) : stage :=
  fold_left reveal entries st.

(** An entry that makes the callback schedule a bar animation: it
    intersects, and its target is a skill item with a progress bar. *)
Definition wants_bar (st : stage) (e : entry) : bool :=
  isIntersecting e &&
  match (targets st !! target_of e : option target) with
  | Some t =>
      contains "skill-item" t &&
      match progressBar t with Some _ => true | None => false end
  | None => false
  end.

(** Some entry of the batch reports the element at position [i] as
    intersecting. *)
Definition seen (entries : list entry) (i : nat) : Prop :=
  exists e, In e entries /\ isIntersecting e = true /\ target_of e = i.

End Reveal.

(* ===================================================================== *)
(** ** Shape of the mailto link *)
(* ===================================================================== *)

Module Link.

(** The characters that structure the query of a [mailto:] address, and
    the space: [&], [?], [#], [=] and U+0020. *)
Definition uri_delimiter (c : code_unit) : bool :=
  (c =? 0x26) || (c =? 0x3F) || (c =? 0x23) || (c =? 0x3D) || (c =? 0x20).

End Link.

(* ===================================================================== *)
(** ** What highlighting may change *)
(* ===================================================================== *)

Module NavFrame.

(** Two states of an element that differ at most in the token [active]. *)
Definition same_but_active (a a' : Nav.anchor) : Prop :=
  Nav.is_a a' = Nav.is_a a /\ Nav.href a' = Nav.href a /\
  textContent (Nav.anchor_node a') = textContent (Nav.anchor_node a) /\
  forall tok, tok <> "active" ->
    (tok ∈ classList (Nav.anchor_node a') <-> tok ∈ classList (Nav.anchor_node a)).

(** A character that the CSS tokenizer, reading a double-quoted string,
    takes as itself: not NUL, not a line break (LF, FF, CR), not the double
    quote and not the backslash. *)
Definition plain_char (c : ascii) : bool :=
  negb (Ascii.eqb c "000" || Ascii.eqb c "010" || Ascii.eqb c "012"
        || Ascii.eqb c "013" || Ascii.eqb c "034" || Ascii.eqb c "092")%char.

(** An id that the selector text [a[href="#id"]] carries unchanged, so that
    the selector matches exactly the [a] elements whose [href] equals [#id],
    as [Nav.selects] has it. With any other id the browser reads another
    selector or throws a SyntaxError, which the embedding does not describe. *)
Definition plain_id (s : string) : bool :=
  forallb plain_char (list_ascii_of_string s).

End NavFrame.

(* ===================================================================== *)
(** ** A scene that was never built *)
(* ===================================================================== *)

Module SceneOff.

(** The flag is off, no scene exists, no resize listener is installed and
    the canvas shows as it did when the page loaded. *)
Definition off_for_good (c0 : option string) (w : Scene.world) : Prop :=
  Scene.isWebGLEnabled w = false /\ Scene.webglScene w = None /\
  Scene.resize_listener w = false /\ Scene.canvas w = c0.

(** The flag is on although no scene was built and no resize listener is
    installed; [window.portfolioApp] is unset and nothing animates. *)
Definition on_without_scene (w : Scene.world) : Prop :=
  Scene.isWebGLEnabled w = true /\ Scene.webglScene w = None /\
  Scene.resize_listener w = false /\ Scene.portfolioApp (Scene.win w) = false /\
  Scene.pending Scene.Animate w = 0%nat.

End SceneOff.

(* ===================================================================== *)
(** * Properties *)
(* ===================================================================== *)

(** ** Trimming *)

Section TrimFacts.

Lemma trimStart_all_space s : all_space s -> trimStart s = [].
Proof.
  induction 1 as [|c s Hc _ IH]; simpl; [reflexivity|].
  now rewrite Hc.
Qed.

Lemma trim_all_space s : all_space s -> trim s = [].
Proof.
  intros H. unfold trim, trimEnd. now rewrite (trimStart_all_space s H).
Qed.

Lemma trimStart_nil_inv s : trimStart s = [] -> all_space s.
Proof.
  induction s as [|c s IH]; simpl; intros H; [constructor|].
  destruct (is_js_space c) eqn:Hc; [|discriminate].
  constructor; [exact Hc|exact (IH H)].
Qed.

Lemma trimStart_head s c t : trimStart s = c :: t -> is_js_space c = false.
Proof.
  induction s as [|d s IH]; simpl; [discriminate|].
  destruct (is_js_space d) eqn:Hd; [exact IH|].
  intros [= -> _]. exact Hd.
Qed.

Lemma trimStart_app_keep s c t :
  is_js_space c = false -> trimStart (s ++ c :: t) <> [].
Proof.
  intros Hc. induction s as [|d s IH]; simpl.
  - now rewrite Hc.
  - destruct (is_js_space d); [exact IH|discriminate].
Qed.

(** The trimmed string is empty exactly when the string is all whitespace. *)
Lemma trim_nil_iff s : trim s = [] <-> all_space s.
Proof.
  split; [|apply trim_all_space].
  unfold trim, trimEnd. intros H.
  destruct (trimStart s) as [|c t] eqn:Hs.
  - now apply trimStart_nil_inv.
  - exfalso. apply (f_equal (@rev _)) in H. rewrite rev_involutive in H.
    simpl in H. revert H. apply trimStart_app_keep.
    eapply trimStart_head; eauto.
Qed.

Lemma truthy_false_iff s : truthy s = false <-> s = [].
Proof. destruct s; simpl; split; congruence. Qed.

Lemma truthy_true_iff s : truthy s = true <-> s <> [].
Proof. destruct s; simpl; split; congruence. Qed.

End TrimFacts.

(** ** The matcher agrees with the meaning of patterns *)

Section RegexFacts.

Lemma matches_seq_inv r1 r2 s :
  matches (RSeq r1 r2) s ->
  exists s1 s2, s = s1 ++ s2 /\ matches r1 s1 /\ matches r2 s2.
Proof. inversion 1; subst; eauto. Qed.

Lemma matches_seq_nil r1 r2 : matches (RSeq r1 r2) [] -> matches r1 [] /\ matches r2 [].
Proof.
  intros H. apply matches_seq_inv in H. destruct H as (s1 & s2 & Heq & H1 & H2).
  destruct s1; [|discriminate]. destruct s2; [|discriminate]. auto.
Qed.

Lemma nullable_matches r : nullable r = true <-> matches r [].
Proof.
  induction r as [| |p|r1 IH1 r2 IH2|r1 IH1 r2 IH2|r IH]; simpl.
  - split; [discriminate|inversion 1].
  - split; [constructor|reflexivity].
  - split; [discriminate|inversion 1].
  - rewrite andb_true_iff, IH1, IH2. split.
    + intros [H1 H2]. exact (MSeq _ _ [] [] H1 H2).
    + apply matches_seq_nil.
  - rewrite orb_true_iff, IH1, IH2. split.
    + intros [H|H]; [now apply MAltL|now apply MAltR].
    + inversion 1; subst; auto.
  - split; [constructor|reflexivity].
Qed.

(** A non-empty match of a starred pattern starts with a non-empty match
    of its body. *)
Lemma matches_star_cons r c s :
  matches (RStar r) (c :: s) ->
  exists s1 s2, s = s1 ++ s2 /\ matches r (c :: s1) /\ matches (RStar r) s2.
Proof.
  intros H. remember (RStar r) as r' eqn:Hr. remember (c :: s) as w eqn:Hw.
  revert c s Hw. induction H as [| | | | | |r0 s1 s2 H1 _ H2 IH2]; try discriminate.
  injection Hr as ->.
  intros c s Hw. destruct s1 as [|d s1]; simpl in Hw.
  - apply IH2; auto.
  - injection Hw as -> <-. exists s1, s2. auto.
Qed.

Lemma deriv_matches c r : forall s, matches (deriv c r) s <-> matches r (c :: s).
Proof.
  induction r as [| |p|r1 IH1 r2 IH2|r1 IH1 r2 IH2|r IH]; simpl; intros s.
  - split; inversion 1.
  - split; inversion 1.
  - destruct (p c) eqn:Hp; split; intros H.
    + inversion H; subst. now constructor.
    + inversion H; subst. constructor.
    + inversion H.
    + inversion H; subst. congruence.
  - assert (Hseq : matches (RSeq (deriv c r1) r2) s ->
                   matches (RSeq r1 r2) (c :: s)).
    { intros H. apply matches_seq_inv in H.
      destruct H as (s1 & s2 & -> & H1 & H2).
      apply IH1 in H1. exact (MSeq _ _ (c :: s1) s2 H1 H2). }
    assert (Hinv : matches (RSeq r1 r2) (c :: s) ->
                   (matches (RSeq (deriv c r1) r2) s) \/
                   (matches r1 [] /\ matches r2 (c :: s))).
    { intros H. apply matches_seq_inv in H.
      destruct H as (s1 & s2 & Heq & H1 & H2).
      destruct s1 as [|d s1]; simpl in Heq.
      - right. subst. auto.
      - injection Heq as -> ->. left. constructor; [now apply IH1|assumption]. }
    destruct (nullable r1) eqn:Hn; split; intros H.
    + inversion H; subst; [now apply Hseq|].
      apply nullable_matches in Hn. apply (MSeq _ _ [] (c :: s)); [assumption|].
      now apply IH2.
    + destruct (Hinv H) as [H'|[_ H']]; [now apply MAltL|].
      apply MAltR. now apply IH2.
    + now apply Hseq.
    + destruct (Hinv H) as [H'|[H' _]]; [assumption|].
      apply nullable_matches in H'. congruence.
  - split; intros H; inversion H; subst.
    + apply MAltL. now apply IH1.
    + apply MAltR. now apply IH2.
    + apply MAltL. now apply IH1.
    + apply MAltR. now apply IH2.
  - split; intros H.
    + apply matches_seq_inv in H. destruct H as (s1 & s2 & -> & H1 & H2).
      apply IH in H1. exact (MStarCons _ (c :: s1) s2 H1 H2).
    + apply matches_star_cons in H. destruct H as (s1 & s2 & -> & H1 & H2).
      constructor; [now apply IH|assumption].
Qed.

Lemma test_matches r s : test r s = true <-> matches r s.
Proof.
  revert r. induction s as [|c s IH]; intros r; simpl.
  - apply nullable_matches.
  - rewrite IH. apply deriv_matches.
Qed.

End RegexFacts.

(** ** The email pattern *)

Section EmailPattern.

Lemma class_matches p s : matches (RClass p) s <-> exists c, s = [c] /\ p c = true.
Proof.
  split.
  - inversion 1; subst; eauto.
  - intros (c & -> & Hc). now constructor.
Qed.

Lemma star_class_matches p s :
  matches (RStar (RClass p)) s <-> Forall (fun c => p c = true) s.
Proof.
  split.
  - intros H. remember (RStar (RClass p)) as r eqn:Hr.
    induction H as [| | | | | |r0 s1 s2 H1 _ _ IH2]; try discriminate.
    + constructor.
    + injection Hr as ->. apply class_matches in H1.
      destruct H1 as (c & -> & Hc). constructor; auto.
  - induction 1 as [|c s Hc _ IH]; [constructor|].
    apply (MStarCons _ [c] s); [now constructor|assumption].
Qed.

Lemma plus_class_matches p s :
  matches (RPlus (RClass p)) s <-> s <> [] /\ Forall (fun c => p c = true) s.
Proof.
  unfold RPlus. split.
  - intros H. apply matches_seq_inv in H. destruct H as (s1 & s2 & -> & H1 & H2).
    apply class_matches in H1. destruct H1 as (c & -> & Hc).
    apply star_class_matches in H2. split; [discriminate|now constructor].
  - intros [Hne H]. destruct H as [|c s Hc Hs]; [congruence|].
    apply (MSeq _ _ [c] s); [now constructor|now apply star_class_matches].
Qed.

Lemma is_unit_true k c : is_unit k c = true <-> c = k.
Proof. unfold is_unit. apply N.eqb_eq. Qed.

(** The pattern accepts exactly the strings of the shape it spells out. *)
Lemma emailRegex_shape s : test emailRegex s = true <-> email_shape s.
Proof.
  rewrite test_matches. unfold emailRegex, email_shape. split.
  - intros H.
    apply matches_seq_inv in H. destruct H as (l & s1 & -> & Hl & H).
    apply matches_seq_inv in H. destruct H as (a & s2 & -> & Ha & H).
    apply matches_seq_inv in H. destruct H as (d & s3 & -> & Hd & H).
    apply matches_seq_inv in H. destruct H as (o & t & -> & Ho & Ht).
    apply class_matches in Ha. destruct Ha as (c & -> & Hc%is_unit_true).
    apply class_matches in Ho. destruct Ho as (c' & -> & Hc'%is_unit_true).
    subst. apply plus_class_matches in Hl, Hd, Ht.
    destruct Hl as [? ?], Hd as [? ?], Ht as [? ?].
    exists l, d, t. repeat split; auto.
    rewrite !Forall_app. auto.
  - intros (l & d & t & -> & Hl & Hd & Ht & Hall).
    rewrite !Forall_app in Hall. destruct Hall as (Fl & Fd & Ft).
    apply MSeq; [now apply plus_class_matches|].
    apply (MSeq _ _ [0x40]); [constructor; reflexivity|].
    apply MSeq; [now apply plus_class_matches|].
    apply (MSeq _ _ [0x2E]); [constructor; reflexivity|].
    now apply plus_class_matches.
Qed.

Example email_ok : test emailRegex (lit "a@b.co") = true.
Proof. reflexivity. Qed.

Example email_no_dot : test emailRegex (lit "a@b") = false.
Proof. reflexivity. Qed.

Example email_no_at : test emailRegex (lit "not-an-email") = false.
Proof. reflexivity. Qed.

Example email_double_dot : test emailRegex (lit "a@b..c") = true.
Proof. reflexivity. Qed.

End EmailPattern.

(** ** Field validation *)

Section FieldValidation.

Lemma validateField_fst field : fst (validateField field) = fst (validateField_verdict field).
Proof.
  unfold validateField. destruct (validateField_verdict field) as [[|] m]; reflexivity.
Qed.

Lemma verdict_required_empty field :
  required field = true -> trim (value field) = [] ->
  validateField_verdict field = (false, msg_required).
Proof.
  intros Hr Hv. unfold validateField_verdict. now rewrite Hr, Hv.
Qed.

Lemma verdict_email_malformed field :
  type field = "email" -> trim (value field) <> [] ->
  test emailRegex (trim (value field)) = false ->
  validateField_verdict field = (false, msg_email).
Proof.
  intros Ht Hv He. unfold validateField_verdict. cbv zeta.
  apply truthy_true_iff in Hv. rewrite Hv, He, Ht.
  now rewrite andb_false_r.
Qed.

Lemma verdict_otherwise field :
  ~ (required field = true /\ trim (value field) = []) ->
  ~ (type field = "email" /\ trim (value field) <> [] /\
     test emailRegex (trim (value field)) = false) ->
  validateField_verdict field = (true, []).
Proof.
  intros H1 H2. unfold validateField_verdict. cbv zeta.
  destruct (truthy (trim (value field))) eqn:Hval.
  - rewrite andb_false_r, andb_true_r.
    destruct (String.eqb (type field) "email") eqn:Ht; [|reflexivity].
    apply String.eqb_eq in Ht. apply truthy_true_iff in Hval.
    destruct (test emailRegex (trim (value field))) eqn:He; [reflexivity|].
    exfalso. apply H2. auto.
  - rewrite andb_true_r, andb_false_r. apply truthy_false_iff in Hval.
    destruct (required field); [exfalso; auto|reflexivity].
Qed.

End FieldValidation.

(** C1, as the code has it. The three cases are decided on the trimmed
    value [field.value.trim()], not on the value as typed. For every field,
    [validateField] is invalid with the message "This field is required."
    when the field is required and its trimmed value is empty; invalid with
    the message "Please enter a valid email address." when the field is of
    type email, the trimmed value is non-empty and fails the email pattern;
    and valid with an empty message in every other case. The flag returned
    by [validateField] is the flag of that verdict, and a required email
    field with a non-empty malformed value gets the email message. *)
Theorem validateField_cases (field : control) :
  let v := trim (value field) in
  (required field = true -> v = [] ->
     validateField_verdict field = (false, msg_required)) /\
  (type field = "email" -> v <> [] -> test emailRegex v = false ->
     validateField_verdict field = (false, msg_email)) /\
  (~ (required field = true /\ v = []) ->
   ~ (type field = "email" /\ v <> [] /\ test emailRegex v = false) ->
     validateField_verdict field = (true, [])) /\
  fst (validateField field) = fst (validateField_verdict field).
Proof.
  cbv zeta. split; [apply verdict_required_empty|].
  split; [apply verdict_email_malformed|].
  split; [apply verdict_otherwise|apply validateField_fst].
Qed.

Lemma validateField_cases_witness :
  let field := mkControl Input "email" true "contactEmail" "contactEmail"
                 (lit "not-an-email") [] (mkElement ∅ []) None in
  validateField_verdict field = (false, msg_email) /\
  validateField_verdict (with_value field (lit "  ")) = (false, msg_required) /\
  validateField_verdict (with_value field (lit "a@b.co")) = (true, []).
Proof.
  cbv zeta. split; [|split].
  - apply (proj1 (proj2 (validateField_cases _))).
    + reflexivity.
    + simpl. discriminate.
    + reflexivity.
  - apply (proj1 (validateField_cases _)); reflexivity.
  - apply (proj1 (proj2 (proj2 (validateField_cases _)))).
    + simpl. intros [_ H]. discriminate H.
    + simpl. intros (_ & _ & H). discriminate H.
Defined.

(** C1 as stated, on the value as typed, fails on blank values. A required
    text control holding one space has a value that is not empty and is not
    of type email, so the claim's last case makes it valid with an empty
    message; the code answers invalid with the required-field message. An
    optional email control holding two spaces has a non-empty value that
    fails the pattern, so the claim's second case makes it invalid with the
    email message; the code answers valid. *)
Lemma validateField_typed_value_blank :
  let name := mkControl Input "text" true "contactName" "contactName"
                [0x20] [] (mkElement ∅ []) None in
  let cc := mkControl Input "email" false "cc" "cc"
              [0x20; 0x20] [] (mkElement ∅ []) None in
  (required name = true /\ value name <> [] /\ type name <> "email" /\
   validateField_verdict name = (false, msg_required) /\
   validateField_verdict name <> (true, []) /\
   fst (validateField name) = false) /\
  (type cc = "email" /\ value cc <> [] /\ test emailRegex (value cc) = false /\
   validateField_verdict cc = (true, []) /\
   validateField_verdict cc <> (false, msg_email) /\
   fst (validateField cc) = true).
Proof.
  cbv zeta. split.
  - split; [reflexivity|]. split; [discriminate|]. split; [discriminate|].
    split; [reflexivity|]. split; [discriminate|reflexivity].
  - split; [reflexivity|]. split; [discriminate|]. split; [reflexivity|].
    split; [reflexivity|]. split; [discriminate|reflexivity].
Qed.

Section Whitespace.

Lemma verdict_with_value field v' :
  trim v' = trim (value field) ->
  validateField_verdict (with_value field v') = validateField_verdict field.
Proof.
  intros H. unfold validateField_verdict. simpl. now rewrite H.
Qed.

Lemma verdict_optional_blank field :
  required field = false -> trim (value field) = [] ->
  validateField_verdict field = (true, []).
Proof.
  intros Hr Hv. unfold validateField_verdict. rewrite Hr, Hv. simpl.
  now rewrite andb_false_r.
Qed.

End Whitespace.

(** C9. [validateField] trims the value before checking it: the verdict
    depends on the value only through its trimmed form; a required field
    whose value is whitespace only is invalid with the required-field
    message; a non-required email field whose value is whitespace only is
    valid with an empty message. *)
Theorem validateField_trims (field : control) :
  (forall v', trim v' = trim (value field) ->
     validateField_verdict (with_value field v') = validateField_verdict field) /\
  (all_space (value field) -> required field = true ->
     validateField_verdict field = (false, msg_required) /\
     fst (validateField field) = false) /\
  (all_space (value field) -> required field = false -> type field = "email" ->
     validateField_verdict field = (true, []) /\
     fst (validateField field) = true).
Proof.
  split; [apply verdict_with_value|]. split.
  - intros Hs Hr. apply trim_all_space in Hs.
    rewrite validateField_fst, (verdict_required_empty field Hr Hs). auto.
  - intros Hs Hr _. apply trim_all_space in Hs.
    rewrite validateField_fst, (verdict_optional_blank field Hr Hs). auto.
Qed.

Lemma validateField_trims_witness :
  validateField_verdict
    (mkControl Input "text" true "contactName" "contactName"
       [0x20; 0x09; 0xA0; 0x2003] [] (mkElement ∅ []) None)
  = (false, msg_required) /\
  validateField_verdict
    (mkControl Input "email" false "cc" "cc" [0x20; 0x0A] [] (mkElement ∅ []) None)
  = (true, []).
Proof.
  split.
  - apply (proj1 (proj2 (validateField_trims _))); [|reflexivity].
    repeat constructor.
  - apply (proj2 (proj2 (validateField_trims _))); try reflexivity.
    repeat constructor.
Defined.

(** ** Form validation *)

Section FormValidation.

Lemma required_control_required f : required_control f = required f.
Proof. unfold required_control. now destruct (tagName f). Qed.

Lemma validateForm_each_spec inputs isValid :
  validateForm_each inputs isValid =
    (isValid && forallb (fun f => fst (validateField f))
                        (List.filter required_control inputs),
     map validated inputs).
Proof.
  revert isValid. induction inputs as [|input rest IH]; intros isValid; simpl.
  - now rewrite andb_true_r.
  - unfold validated at 1. destruct (required_control input) eqn:Hreq; simpl.
    + destruct (validateField input) as [ok input'] eqn:Hv. rewrite IH. simpl.
      destruct ok, isValid; reflexivity.
    + now rewrite IH.
Qed.

Lemma add_remove_marks a b (e : element) :
  a <> b ->
  a ∈ classList (add a (remove b e)) /\ b ∉ classList (add a (remove b e)).
Proof.
  intros Hab. unfold add, remove. simpl.
  rewrite !elem_of_union, !elem_of_difference, !elem_of_singleton. split.
  - now left.
  - intros [H|[_ H]]; congruence.
Qed.

Lemma validateField_invalid_marked f :
  fst (validateField f) = false ->
  "is-invalid" ∈ classList (snd (validateField f)) /\
  "is-valid" ∉ classList (snd (validateField f)).
Proof.
  unfold validateField. destruct (validateField_verdict f) as [[|] m]; simpl.
  - discriminate.
  - intros _. now apply add_remove_marks.
Qed.

Lemma validateField_valid_marked f :
  fst (validateField f) = true ->
  "is-valid" ∈ classList (snd (validateField f)) /\
  "is-invalid" ∉ classList (snd (validateField f)).
Proof.
  unfold validateField. destruct (validateField_verdict f) as [[|] m]; simpl.
  - intros _. now apply add_remove_marks.
  - discriminate.
Qed.

End FormValidation.

(** C2. For every form, [validateForm] returns the conjunction of
    [validateField] over all required controls, and it runs [validateField]
    on every required control, whatever the earlier ones gave: each required
    control comes out as [validateField] leaves it, so every invalid one
    carries the invalid mark after the same pass. *)
Theorem validateForm_checks_all (form : list control) :
  fst (validateForm form) =
    forallb (fun f => fst (validateField f)) (List.filter required form) /\
  snd (validateForm form) =
    map (fun f => if required f then snd (validateField f) else f) form /\
  (forall i f, form !! i = Some f -> required f = true ->
     fst (validateField f) = false ->
     exists f', snd (validateForm form) !! i = Some f' /\
                f' = snd (validateField f) /\
                "is-invalid" ∈ classList f' /\ "is-valid" ∉ classList f').
Proof.
  unfold validateForm. rewrite validateForm_each_spec. simpl.
  assert (Hmap : map validated form =
                 map (fun f => if required f then snd (validateField f) else f) form).
  { apply map_ext. intros f. unfold validated. now rewrite required_control_required. }
  split; [|split].
  - f_equal. apply filter_ext. intros f. apply required_control_required.
  - exact Hmap.
  - intros i f Hi Hr Hbad. exists (snd (validateField f)).
    rewrite Hmap, list_lookup_fmap, Hi. simpl. rewrite Hr.
    split; [reflexivity|]. split; [reflexivity|].
    now apply validateField_invalid_marked.
Qed.

Lemma validateForm_checks_all_witness :
  let blank := mkControl Input "text" true "contactName" "contactName"
                 [] [] (mkElement ∅ []) None in
  let bad := mkControl Input "email" true "contactEmail" "contactEmail"
               (lit "a@b") [] (mkElement ∅ []) None in
  let form := [blank; bad] in
  fst (validateForm form) = false /\
  exists f', snd (validateForm form) !! 1%nat = Some f' /\
             f' = snd (validateField bad) /\
             "is-invalid" ∈ classList f' /\ "is-valid" ∉ classList f'.
Proof.
  cbv zeta. split; [reflexivity|].
  apply (proj2 (proj2 (validateForm_checks_all _)) 1%nat); reflexivity.
Defined.

(** ** Project gallery *)

Section Gallery.

Lemma render_each_ok ps : forall index g cp g',
  render_each ps index g = (cp, g') ->
  cp = Normal -> length (container g') = (length (container g) + length ps)%nat.
Proof.
  induction ps as [|p ps IH]; simpl; intros index g cp g' H Hn.
  - injection H as _ <-. lia.
  - destruct (createProjectCard p index) as [c|e].
    + rewrite (IH _ _ _ _ H Hn). simpl. rewrite length_app. simpl. lia.
    + injection H as <- _. discriminate.
Qed.

(** The built-in list always renders, whatever the gallery held before. *)
Lemma renderFallbackProjects_result g :
  renderFallbackProjects g =
    (Normal,
     mkGallery (JArr fallbackProjects)
       [ fallback_card "JAVA IN MY STYLE" "./java.png"
           "Deep learning model for image classification using TensorFlow and CNN architecture."
           "https://techinmystyle.com/java%20in%20my%20style/" 0;
         fallback_card "JAVASCRIPT INTERMEDIATE IN MY STYLE" "./JAVASCRIPT.png"
           "Interactive dashboard for data visualization and analytics using Python and Streamlit."
           "https://techinmystyle.com/javascript%20in%20my%20style%20-%20intermediate/" 1;
         fallback_card "ML IN MY STYLE" "./ml.png"
           "Real-time object detection and recognition using OpenCV and YOLO algorithm."
           "https://techinmystyle.com/ml%20in%20my%20style/" 2;
         fallback_card "AI IN MY STYLE" "./ai.png"
           "Real-time object detection and recognition using OpenCV and YOLO algorithm."
           "https://techinmystyle.com/ai%20in%20my%20style/" 3 ]
       (console_errors g)).
Proof. reflexivity. Qed.

Lemma renderProjects_container g :
  fst (renderProjects g) = Normal ->
  exists ps, projects g = JArr ps /\
             length (container (snd (renderProjects g))) = length ps.
Proof.
  unfold renderProjects. simpl. destruct (projects g) as [| | | |ps|]; try discriminate.
  intros H. exists ps. split; [reflexivity|].
  destruct (render_each ps 0 _) as [cp g'] eqn:Hr. simpl in *.
  now rewrite (render_each_ok _ _ _ _ _ Hr H).
Qed.

End Gallery.

(** C3. When the fetch of the project data rejects, or parsing its body
    fails, [loadProjects] ends normally with exactly the four built-in
    projects in the container, in their fixed order; when the fetch yields
    an array of length 0 the container holds 0 cards and the call ends
    normally. More generally [loadProjects] never ends in an exception, and
    the container then holds either one card per element of the fetched
    array or the four built-in cards. *)
Theorem loadProjects_fallback (g : gallery) :
  let builtin :=
    [ fallback_card "JAVA IN MY STYLE" "./java.png"
        "Deep learning model for image classification using TensorFlow and CNN architecture."
        "https://techinmystyle.com/java%20in%20my%20style/" 0;
      fallback_card "JAVASCRIPT INTERMEDIATE IN MY STYLE" "./JAVASCRIPT.png"
        "Interactive dashboard for data visualization and analytics using Python and Streamlit."
        "https://techinmystyle.com/javascript%20in%20my%20style%20-%20intermediate/" 1;
      fallback_card "ML IN MY STYLE" "./ml.png"
        "Real-time object detection and recognition using OpenCV and YOLO algorithm."
        "https://techinmystyle.com/ml%20in%20my%20style/" 2;
      fallback_card "AI IN MY STYLE" "./ai.png"
        "Real-time object detection and recognition using OpenCV and YOLO algorithm."
        "https://techinmystyle.com/ai%20in%20my%20style/" 3 ] in
  (fst (loadProjects FetchRejected g) = Normal /\
   container (snd (loadProjects FetchRejected g)) = builtin) /\
  (fst (loadProjects JsonRejected g) = Normal /\
   container (snd (loadProjects JsonRejected g)) = builtin) /\
  (fst (loadProjects (Parsed (JArr [])) g) = Normal /\
   container (snd (loadProjects (Parsed (JArr [])) g)) = []) /\
  (forall r, fst (loadProjects r g) = Normal /\
     (container (snd (loadProjects r g)) = builtin \/
      exists ps, r = Parsed (JArr ps) /\
                 length (container (snd (loadProjects r g))) = length ps)).
Proof.
  cbv zeta. split; [|split; [|split]].
  - unfold loadProjects, on_catch. rewrite renderFallbackProjects_result. auto.
  - unfold loadProjects, on_catch. rewrite renderFallbackProjects_result. auto.
  - split; reflexivity.
  - intros r. destruct r as [| |v]; unfold loadProjects.
    + unfold on_catch. rewrite renderFallbackProjects_result. auto.
    + unfold on_catch. rewrite renderFallbackProjects_result. auto.
    + pose proof (renderProjects_container (mkGallery v (container g) (console_errors g))) as Hc.
      destruct (renderProjects (mkGallery v (container g) (console_errors g)))
        as [[|e] g'] eqn:Hr.
      * simpl in *. destruct (Hc eq_refl) as (ps & -> & Hlen).
        split; [reflexivity|]. right. exists ps. auto.
      * unfold on_catch. rewrite renderFallbackProjects_result. auto.
Qed.

Example loadProjects_null_entry :
  container (snd (loadProjects (Parsed (JArr [project "t" "i" "d" "l"; JNull]))
                    (mkGallery (JArr []) [] [])))
  = container (snd (loadProjects FetchRejected (mkGallery (JArr []) [] []))).
Proof. reflexivity. Qed.

(** ** Theme store *)

Section ThemeFacts.

Lemma setTheme_persists theme st :
  currentTheme (setTheme theme st) = theme /\
  data_theme (setTheme theme st) = Some theme /\
  localStorage (setTheme theme st) !! theme_key = Some theme.
Proof.
  unfold setTheme. simpl. split; [reflexivity|]. split; [reflexivity|].
  apply lookup_insert_eq.
Qed.

Lemma toggleTheme_current st :
  currentTheme (toggleTheme st) =
    if String.eqb (currentTheme st) "dark" then "light" else "dark".
Proof. reflexivity. Qed.

Lemma toggleTheme_persists st :
  data_theme (toggleTheme st) = Some (currentTheme (toggleTheme st)) /\
  localStorage (toggleTheme st) !! theme_key = Some (currentTheme (toggleTheme st)).
Proof.
  unfold toggleTheme. simpl. split; [reflexivity|]. apply lookup_insert_eq.
Qed.

Lemma toggleTheme_twice st :
  currentTheme (toggleTheme (toggleTheme st)) =
    if String.eqb (currentTheme st) "dark" then "dark" else "light".
Proof.
  rewrite !toggleTheme_current. now destruct (String.eqb (currentTheme st) "dark").
Qed.

Lemma setupTheme_current st :
  currentTheme (setupTheme st) = getItem_or_dark (localStorage st).
Proof. reflexivity. Qed.

End ThemeFacts.

(** C4, as the code has it. From the theme dark or light, toggling twice
    returns to the theme one started from (from any other current theme two
    toggles end on light); after every [setTheme] and every toggle the
    persisted value and the root attribute equal the theme just applied; at
    load a missing or empty stored value gives the default dark, and any
    other stored string is applied as it is. *)
Theorem theme_store_laws (st : store) :
  (currentTheme st = "dark" \/ currentTheme st = "light" ->
     currentTheme (toggleTheme (toggleTheme st)) = currentTheme st) /\
  (currentTheme st <> "dark" ->
     currentTheme (toggleTheme (toggleTheme st)) = "light") /\
  (forall theme,
     currentTheme (setTheme theme st) = theme /\
     data_theme (setTheme theme st) = Some theme /\
     localStorage (setTheme theme st) !! theme_key = Some theme) /\
  (data_theme (toggleTheme st) = Some (currentTheme (toggleTheme st)) /\
   localStorage (toggleTheme st) !! theme_key = Some (currentTheme (toggleTheme st))) /\
  (localStorage st !! theme_key = None \/ localStorage st !! theme_key = Some "" ->
     currentTheme (setupTheme st) = "dark") /\
  (forall s, localStorage st !! theme_key = Some s -> s <> "" ->
     currentTheme (setupTheme st) = s) /\
  localStorage (setupTheme st) !! theme_key = Some (currentTheme (setupTheme st)).
Proof.
  split; [|split; [|split; [|split; [|split; [|split]]]]].
  - rewrite toggleTheme_twice. intros [-> | ->]; reflexivity.
  - rewrite toggleTheme_twice. intros Hne.
    destruct (String.eqb (currentTheme st) "dark") eqn:E; [|reflexivity].
    apply String.eqb_eq in E. congruence.
  - intros theme. apply setTheme_persists.
  - apply toggleTheme_persists.
  - rewrite setupTheme_current. unfold getItem_or_dark.
    intros [-> | ->]; reflexivity.
  - intros s Hs Hne. rewrite setupTheme_current. unfold getItem_or_dark. rewrite Hs.
    destruct (String.eqb s "") eqn:E; [|reflexivity].
    apply String.eqb_eq in E. congruence.
  - unfold setupTheme. apply setTheme_persists.
Qed.

Lemma theme_store_laws_witness :
  let st := setupTheme (fresh {[theme_key := "light"]} ["bi"]) in
  currentTheme st = "light" /\
  currentTheme (toggleTheme (toggleTheme st)) = currentTheme st /\
  currentTheme (setupTheme (fresh ∅ [])) = "dark".
Proof.
  cbv zeta. split; [|split].
  - apply (proj1 (proj2 (proj2 (proj2 (proj2 (proj2 (theme_store_laws _))))))).
    + reflexivity.
    + discriminate.
  - apply (proj1 (theme_store_laws _)). right. reflexivity.
  - apply (proj1 (proj2 (proj2 (proj2 (proj2 (theme_store_laws _)))))).
    left. reflexivity.
Defined.

(** C4 as stated fails on a stored value that is neither dark nor light:
    the value "blue" is applied as the theme at load instead of the default,
    and two toggles from it do not come back to it. *)
Lemma theme_corrupt_value_applied :
  let st := setupTheme (fresh {[theme_key := "blue"]} ["bi"]) in
  currentTheme st <> "dark" /\
  data_theme st = Some "blue" /\
  currentTheme (toggleTheme (toggleTheme st)) <> currentTheme st.
Proof.
  cbv zeta. split; [|split].
  - vm_compute. discriminate.
  - reflexivity.
  - vm_compute. discriminate.
Qed.

(** ** Navigation highlighting *)

Section NavFacts.
Import Nav.

Lemma fold_visit_outside scrollPos secs : forall els,
  Forall (fun s => in_span scrollPos s = false) secs ->
  fold_left (visit_section scrollPos) secs els = els.
Proof.
  induction secs as [|s secs IH]; intros els H; simpl; [reflexivity|].
  inversion H as [|? ? Hs Hrest]; subst.
  unfold visit_section at 2. rewrite Hs. now apply IH.
Qed.

End NavFacts.

(** C10. When no section's vertical span contains [scrollY + 100],
    [updateActiveNavItem] leaves the page as it was: no active marker is
    removed from, or added to, any element. *)
Theorem updateActiveNavItem_no_section (d : Nav.document) :
  (forall s, In s (Nav.sections d) ->
     ~ (Nav.offsetTop s <= Nav.scrollY d + 100 < Nav.offsetTop s + Nav.offsetHeight s)%Z) ->
  Nav.updateActiveNavItem d = d.
Proof.
  intros H. unfold Nav.updateActiveNavItem. rewrite fold_visit_outside.
  - now destruct d.
  - apply List.Forall_forall. intros s Hs. specialize (H s Hs).
    unfold Nav.in_span. apply andb_false_iff.
    destruct (Z.leb_spec (Nav.offsetTop s) (Nav.scrollY d + 100)); [|auto].
    right. apply Z.ltb_ge. lia.
Qed.

Lemma updateActiveNavItem_no_section_witness :
  let d := Nav.mkDocument
             [Nav.mkSection "about" 600 400; Nav.mkSection "contact" 1000 300]
             [Nav.mkAnchor true (Some "#about") (mkElement {["nav-link"; "active"]} [])]
             120 in
  Nav.updateActiveNavItem d = d.
Proof.
  cbv zeta. apply updateActiveNavItem_no_section.
  simpl. intros s [<- | [<- | []]]; simpl; lia.
Defined.

Example updateActiveNavItem_moves_marker :
  Nav.elements
    (Nav.updateActiveNavItem
       (Nav.mkDocument
          [Nav.mkSection "about" 600 400; Nav.mkSection "contact" 1000 300]
          [Nav.mkAnchor true (Some "#about") (mkElement {["nav-link"; "active"]} []);
           Nav.mkAnchor true (Some "#contact") (mkElement {["nav-link"]} [])]
          950))
  = [Nav.mkAnchor true (Some "#about") (mkElement {["nav-link"]} []);
     Nav.mkAnchor true (Some "#contact") (mkElement {["nav-link"; "active"]} [])].
Proof. vm_compute. reflexivity. Qed.

(** ** Scroll throttle *)

(** Unfolds the record updates of the scene and reads the fields back. *)
Ltac setters :=
  unfold Scene.set_win, Scene.set_canvas, Scene.set_hero,
         Scene.set_isWebGLEnabled, Scene.set_webglScene,
         Scene.set_resize_listener, Scene.set_scroll_listener,
         Scene.set_ticking, Scene.set_rafQueue,
         Scene.requestAnimationFrame in *;
  cbn in *.

Section Throttle.
Import Scene.

Lemma animate_guard w :
  ticking (animate w) = ticking w /\
  scroll_listener (animate w) = scroll_listener w /\
  pending ScrollUpdate (animate w) = pending ScrollUpdate w.
Proof.
  unfold animate, pending. destruct (isWebGLEnabled w); simpl; [|auto].
  rewrite List.filter_app, length_app. simpl. auto with arith.
Qed.

Lemma handleScrollEffects_guard w :
  ticking (handleScrollEffects w) = ticking w /\
  scroll_listener (handleScrollEffects w) = scroll_listener w /\
  rafQueue (handleScrollEffects w) = rafQueue w.
Proof.
  unfold handleScrollEffects.
  destruct (hero w); [destruct (_ <? _)%Z|]; simpl;
    destruct (webglScene w); simpl; try destruct (isWebGLEnabled w); auto.
Qed.

Lemma run_callback_guard w cb :
  scroll_listener (run_callback w cb) = scroll_listener w /\
  pending ScrollUpdate (run_callback w cb) = pending ScrollUpdate w /\
  ticking (run_callback w cb) =
    if same_callback ScrollUpdate cb then false else ticking w.
Proof.
  destruct cb; simpl.
  - destruct (animate_guard w) as (? & ? & ?). auto.
  - destruct (handleScrollEffects_guard w) as (_ & Hl & Hq).
    unfold pending. simpl. rewrite Hq. auto.
Qed.

Lemma run_callbacks_guard q : forall w,
  scroll_listener (fold_left run_callback q w) = scroll_listener w /\
  pending ScrollUpdate (fold_left run_callback q w) = pending ScrollUpdate w /\
  ticking (fold_left run_callback q w) =
    if existsb (same_callback ScrollUpdate) q then false else ticking w.
Proof.
  induction q as [|cb q IH]; intros w; cbn [fold_left existsb]; [auto|].
  destruct (IH (run_callback w cb)) as (H1 & H2 & H3).
  destruct (run_callback_guard w cb) as (G1 & G2 & G3).
  rewrite H1, H2, H3, G1, G2, G3.
  destruct (same_callback ScrollUpdate cb), (existsb (same_callback ScrollUpdate) q);
    auto.
Qed.

Lemma pending_positive_exists w :
  pending ScrollUpdate w = 1%nat ->
  existsb (same_callback ScrollUpdate) (rafQueue w) = true.
Proof.
  unfold pending. induction (rafQueue w) as [|cb q IH]; simpl; [discriminate|].
  destruct cb; simpl; auto.
Qed.

(** A frame runs whatever waits and leaves the throttle idle. *)
Lemma frame_idle w :
  guard_consistent w ->
  ticking (step w Frame) = false /\ pending ScrollUpdate (step w Frame) = 0%nat.
Proof.
  unfold guard_consistent. intros Hinv. simpl.
  destruct (run_callbacks_guard (rafQueue w) (set_rafQueue [] w)) as (_ & -> & ->).
  split; [|reflexivity]. simpl.
  destruct (ticking w) eqn:Ht.
  - now rewrite (pending_positive_exists w Hinv).
  - now destruct (existsb _ _).
Qed.

Lemma step_listener w e : scroll_listener (step w e) = scroll_listener w.
Proof.
  destruct e as [y|width height|hide|]; unfold step.
  - setters. destruct (scroll_listener w) eqn:Hl; [|reflexivity].
    unfold scroll_handler. setters. now destruct (ticking w).
  - setters. destruct (resize_listener w); [|reflexivity].
    unfold resize_handler. setters.
    destruct (_ <=? _)%Z; [reflexivity|].
    now destruct (negb (isWebGLEnabled w) && webglSupported (win w)).
  - unfold visibility_handler. setters.
    destruct (portfolioApp (win w) && isWebGLEnabled w); [|reflexivity].
    now destruct hide.
  - now destruct (run_callbacks_guard (rafQueue w) (set_rafQueue [] w)) as (-> & _).
Qed.

Lemma step_guard w e : guard_consistent w -> guard_consistent (step w e).
Proof.
  intros Hinv. destruct e as [y|width height|hide|].
  - revert Hinv. unfold guard_consistent, pending, step. setters.
    destruct (scroll_listener w); [|auto].
    unfold scroll_handler. setters. destruct (ticking w) eqn:Ht; setters.
    + auto.
    + rewrite List.filter_app, length_app. simpl. intros ->. reflexivity.
  - revert Hinv. unfold guard_consistent, pending, step. setters.
    destruct (resize_listener w); [|auto].
    unfold resize_handler. setters.
    destruct (_ <=? _)%Z; [auto|].
    now destruct (negb (isWebGLEnabled w) && webglSupported (win w)).
  - revert Hinv. unfold guard_consistent, pending, step, visibility_handler. setters.
    destruct (portfolioApp (win w) && isWebGLEnabled w); [|auto].
    now destruct hide.
  - destruct (frame_idle w Hinv) as [Ht Hp].
    unfold guard_consistent. now rewrite Ht, Hp.
Qed.

Lemma run_cons e evs w : run (e :: evs) w = run evs (step w e).
Proof. reflexivity. Qed.

Lemma run_guard evs : forall w,
  guard_consistent w -> guard_consistent (run evs w).
Proof.
  induction evs as [|e evs IH]; intros w H; [assumption|].
  rewrite run_cons. apply IH. now apply step_guard.
Qed.

Lemma run_listener evs : forall w, scroll_listener (run evs w) = scroll_listener w.
Proof.
  induction evs as [|e evs IH]; intros w; [reflexivity|].
  now rewrite run_cons, IH, step_listener.
Qed.

Lemma init_tail_guard width height supported canvas0 hero0 :
  guard_consistent (init_tail (loaded width height supported canvas0 hero0)) /\
  scroll_listener (init_tail (loaded width height supported canvas0 hero0)) = true.
Proof.
  unfold init_tail, loaded, setupWebGL, initWebGL, guard_consistent, pending. simpl.
  destruct ((768 <? width)%Z && supported); simpl; [|auto].
  destruct canvas0; simpl; auto.
Qed.

(** One scroll event puts the throttle in the queued state, whatever its
    state was. *)
Lemma scroll_queues w y :
  guard_consistent w -> scroll_listener w = true ->
  ticking (step w (Scroll y)) = true /\ pending ScrollUpdate (step w (Scroll y)) = 1%nat.
Proof.
  unfold guard_consistent, pending, step. setters. intros Hinv ->.
  unfold scroll_handler. setters. destruct (ticking w) eqn:Ht; setters.
  - auto.
  - rewrite List.filter_app, length_app, Hinv. auto.
Qed.

Lemma scrolls_queue_once ys : forall w,
  guard_consistent w -> scroll_listener w = true -> ys <> [] ->
  ticking (run (map Scroll ys) w) = true /\
  pending ScrollUpdate (run (map Scroll ys) w) = 1%nat.
Proof.
  induction ys as [|y ys IH]; intros w Hinv Hl Hne; [congruence|].
  cbn [map]. rewrite run_cons. destruct ys as [|y' ys'].
  - now apply scroll_queues.
  - apply IH; [now apply step_guard|now rewrite step_listener|discriminate].
Qed.

End Throttle.

(** C5. For every sequence of events delivered to the page after start-up,
    at most one scroll update waits for the next frame, and one waits
    exactly when the guard [ticking] is set; a frame runs the waiting update
    and clears the guard, and any number N >= 1 of scroll events arriving
    after that frame and before the next one schedules exactly one update
    (the first event sets the guard, the others find it set). *)
Theorem scroll_updates_throttled
    (width height : Z) (supported : bool) (canvas0 : option string) (hero0 : bool)
    (evs : list Scene.event) (ys : list Z) :
  let w := Scene.run evs (Scene.init_tail (Scene.loaded width height supported canvas0 hero0)) in
  (Scene.pending Scene.ScrollUpdate w <= 1)%nat /\
  (Scene.ticking w = true <-> Scene.pending Scene.ScrollUpdate w = 1%nat) /\
  Scene.ticking (Scene.step w Scene.Frame) = false /\
  Scene.pending Scene.ScrollUpdate (Scene.step w Scene.Frame) = 0%nat /\
  (ys <> [] ->
     Scene.pending Scene.ScrollUpdate
       (Scene.run (map Scene.Scroll ys) (Scene.step w Scene.Frame)) = 1%nat /\
     Scene.ticking (Scene.run (map Scene.Scroll ys) (Scene.step w Scene.Frame)) = true).
Proof.
  cbv zeta.
  destruct (init_tail_guard width height supported canvas0 hero0) as [Hinv0 Hl0].
  set (w0 := Scene.init_tail _) in *.
  pose proof (run_guard evs w0 Hinv0) as Hinv.
  pose proof (run_listener evs w0) as Hl. rewrite Hl0 in Hl.
  set (w := Scene.run evs w0) in *.
  destruct (frame_idle w Hinv) as [Ht Hp].
  split; [|split; [|split; [|split]]]; auto.
  - unfold Scene.guard_consistent in Hinv. rewrite Hinv.
    destruct (Scene.ticking w); lia.
  - unfold Scene.guard_consistent in Hinv. rewrite Hinv.
    destruct (Scene.ticking w); split; congruence.
  - intros Hne.
    destruct (scrolls_queue_once ys (Scene.step w Scene.Frame)) as [H1 H2]; auto.
    + now apply step_guard.
    + now rewrite step_listener.
Qed.

Lemma scroll_updates_throttled_witness :
  let w := Scene.run [Scene.Scroll 10; Scene.Scroll 20]
             (Scene.init_tail (Scene.loaded 1024 768 true (Some "") true)) in
  Scene.pending Scene.ScrollUpdate
    (Scene.run (map Scene.Scroll [30; 45; 60]%Z) (Scene.step w Scene.Frame)) = 1%nat /\
  Scene.ticking
    (Scene.run (map Scene.Scroll [30; 45; 60]%Z) (Scene.step w Scene.Frame)) = true.
Proof.
  cbv zeta.
  apply (proj2 (proj2 (proj2 (proj2
           (scroll_updates_throttled 1024 768 true (Some "") true
              [Scene.Scroll 10; Scene.Scroll 20] [30; 45; 60]%Z))))).
  discriminate.
Defined.

(** ** Particle scene *)

Section ParticleScene.
Import Scene.

Lemma handleScrollEffects_still w :
  rafQueue (handleScrollEffects w) = rafQueue w /\
  frames_drawn (handleScrollEffects w) = frames_drawn w /\
  isWebGLEnabled (handleScrollEffects w) = isWebGLEnabled w /\
  win (handleScrollEffects w) = win w.
Proof.
  unfold handleScrollEffects, frames_drawn.
  set (w1 := match hero w with Some _ => _ | None => _ end).
  assert (Hw1 : rafQueue w1 = rafQueue w /\ webglScene w1 = webglScene w /\
                isWebGLEnabled w1 = isWebGLEnabled w /\ win w1 = win w).
  { subst w1. destruct (hero w); [destruct (_ <? _)%Z|]; auto. }
  destruct Hw1 as (Q & S & E & W). rewrite <- Q, <- S, <- E, <- W.
  clearbody w1.
  destruct (webglScene w1) as [t|] eqn:Ht; [destruct (isWebGLEnabled w1) eqn:He|];
    unfold set_webglScene; cbn; rewrite ?Ht, ?He; auto.
Qed.

Lemma run_callback_window w cb :
  win (run_callback w cb) = win w /\
  isWebGLEnabled (run_callback w cb) = isWebGLEnabled w.
Proof.
  destruct cb; cbn [run_callback].
  - unfold animate. destruct (isWebGLEnabled w) eqn:E; auto.
  - destruct (handleScrollEffects_still w) as (_ & _ & H3 & H4). auto.
Qed.

Lemma run_callbacks_window q : forall w,
  win (fold_left run_callback q w) = win w /\
  isWebGLEnabled (fold_left run_callback q w) = isWebGLEnabled w.
Proof.
  induction q as [|cb q IH]; intros w; cbn [fold_left]; [auto|].
  destruct (IH (run_callback w cb)) as [-> ->]. apply run_callback_window.
Qed.

Lemma run_scroll_callbacks q : forall w,
  existsb (same_callback Animate) q = false ->
  rafQueue (fold_left run_callback q w) = rafQueue w /\
  frames_drawn (fold_left run_callback q w) = frames_drawn w.
Proof.
  induction q as [|cb q IH]; intros w Hq; cbn [fold_left]; [auto|].
  destruct cb; [discriminate|]. cbn [existsb same_callback orb] in Hq.
  destruct (IH (run_callback w ScrollUpdate) Hq) as (-> & ->).
  destruct (handleScrollEffects_still w) as (H1 & H2 & _).
  unfold run_callback, frames_drawn in *. setters. auto.
Qed.

Lemma pending_none_exists cb q :
  length (List.filter (same_callback cb) q) = 0%nat ->
  existsb (same_callback cb) q = false.
Proof.
  induction q as [|c q IH]; simpl; [reflexivity|].
  destruct (same_callback cb c); simpl; [discriminate|exact IH].
Qed.

Lemma step_still w e : still w -> still (step w e).
Proof.
  unfold still, pending, frames_drawn. intros [Hq Hr].
  destruct e as [y|width height|hide|]; unfold step.
  - setters. destruct (scroll_listener w); [|auto].
    unfold scroll_handler. setters. destruct (ticking w); setters; [auto|].
    rewrite List.filter_app, length_app, Hq. auto.
  - setters. destruct (resize_listener w); [|auto].
    unfold resize_handler. setters. destruct (_ <=? _)%Z; setters; [auto|].
    destruct (negb (isWebGLEnabled w) && webglSupported (win w)); setters; [|auto].
    destruct (webglScene w); auto.
  - unfold visibility_handler. setters.
    destruct (portfolioApp (win w) && isWebGLEnabled w); [|auto].
    destruct hide; auto.
  - destruct (run_scroll_callbacks (rafQueue w) (set_rafQueue [] w)
                (pending_none_exists _ _ Hq)) as (-> & H2).
    unfold frames_drawn in H2. rewrite H2. auto.
Qed.

Lemma run_still evs : forall w, still w -> still (run evs w).
Proof.
  induction evs as [|e evs IH]; intros w H; [assumption|].
  change (run (e :: evs) w) with (run evs (step w e)). apply IH. now apply step_still.
Qed.

(** [animate()] is first called while [isWebGLEnabled] is still false, so
    start-up leaves no animation callback behind. *)
Lemma init_tail_still width height supported canvas0 hero0 :
  still (init_tail (loaded width height supported canvas0 hero0)).
Proof.
  unfold still, init_tail, loaded, setupWebGL, initWebGL, pending, frames_drawn.
  setters. destruct ((768 <? width)%Z && supported); setters; [|auto].
  destruct canvas0; setters; auto.
Qed.

Lemma scene_never_animates width height supported canvas0 hero0 evs :
  pending Animate (run evs (init_tail (loaded width height supported canvas0 hero0))) = 0%nat /\
  frames_drawn (run evs (init_tail (loaded width height supported canvas0 hero0))) = 0%nat.
Proof. apply run_still, init_tail_still. Qed.

(** The script never assigns [window.portfolioApp], and no handler does. *)
Lemma step_portfolioApp w e : portfolioApp (win (step w e)) = portfolioApp (win w).
Proof.
  destruct e as [y|width height|hide|]; unfold step.
  - setters. destruct (scroll_listener w); [|reflexivity].
    unfold scroll_handler. setters. now destruct (ticking w).
  - setters. destruct (resize_listener w); [|reflexivity].
    unfold resize_handler. setters. destruct (_ <=? _)%Z; [reflexivity|].
    now destruct (negb (isWebGLEnabled w) && webglSupported (win w)).
  - unfold visibility_handler. setters.
    destruct (portfolioApp (win w) && isWebGLEnabled w); [|reflexivity].
    now destruct hide.
  - now destruct (run_callbacks_window (rafQueue w) (set_rafQueue [] w)) as [-> _].
Qed.

End ParticleScene.

Section SceneTransitions.
Import Scene.

Lemma run_portfolioApp evs : forall w,
  portfolioApp (win (run evs w)) = portfolioApp (win w).
Proof.
  induction evs as [|e evs IH]; intros w; [reflexivity|].
  change (run (e :: evs) w) with (run evs (step w e)).
  now rewrite IH, step_portfolioApp.
Qed.

Lemma visibility_unbound w hide :
  portfolioApp (win w) = false ->
  isWebGLEnabled (step w (VisibilityChange hide)) = isWebGLEnabled w.
Proof.
  intros H. unfold step, visibility_handler, set_win. cbn. now rewrite H.
Qed.

(** Even with [window.portfolioApp] bound to the app, the handler's guard
    reads the flag it is meant to restore: once off, it stays off. *)
Lemma visibility_cannot_resume w :
  isWebGLEnabled w = false ->
  isWebGLEnabled (step w (VisibilityChange false)) = false.
Proof.
  intros H. unfold step, visibility_handler, set_win. cbn.
  rewrite H, andb_false_r. reflexivity.
Qed.

(** The width test of the resize listener, on a page where it is installed. *)
Lemma resize_narrow_suspends w width height :
  resize_listener w = true -> (width <= 768)%Z ->
  isWebGLEnabled (step w (Resize width height)) = false /\
  canvas (step w (Resize width height)) = (fun _ => "none") <$> canvas w.
Proof.
  intros Hl Hw. unfold step, set_win. cbn. rewrite Hl.
  unfold resize_handler. cbn.
  destruct (Z.leb_spec width 768); [|lia]. auto.
Qed.

Lemma resize_wide_restores w width height :
  resize_listener w = true -> (768 < width)%Z ->
  isWebGLEnabled w = false -> webglSupported (win w) = true ->
  isWebGLEnabled (step w (Resize width height)) = true /\
  canvas (step w (Resize width height)) = (fun _ => "block") <$> canvas w /\
  aspect <$> webglScene (step w (Resize width height))
    = (fun _ => (width, height)) <$> webglScene w.
Proof.
  intros Hl Hw He Hs. unfold step, set_win. cbn. rewrite Hl.
  unfold resize_handler. cbn.
  destruct (Z.leb_spec width 768); [lia|]. rewrite He, Hs. cbn.
  destruct (webglScene w); auto.
Qed.

End SceneTransitions.

(** C6 on the code. On a page run by this script, [window.portfolioApp] is
    never assigned, so the visibility listener changes nothing: for every
    history of events, hiding (or showing) the tab leaves [isWebGLEnabled]
    as it was. In particular a scene enabled at start-up on a 1024 pixel
    wide, WebGL-capable page stays enabled when the tab is hidden. *)
Theorem visibility_change_ignored
    (width height : Z) (supported : bool) (canvas0 : option string) (hero0 : bool)
    (evs : list Scene.event) (hide : bool) :
  let w := Scene.run evs (Scene.init_tail (Scene.loaded width height supported canvas0 hero0)) in
  Scene.isWebGLEnabled (Scene.step w (Scene.VisibilityChange hide)) = Scene.isWebGLEnabled w /\
  Scene.isWebGLEnabled
    (Scene.step (Scene.init_tail (Scene.loaded 1024 768 true (Some "") true))
       (Scene.VisibilityChange true)) = true.
Proof.
  cbv zeta. split; [|reflexivity].
  apply visibility_unbound. rewrite run_portfolioApp.
  unfold Scene.init_tail, Scene.setupWebGL, Scene.initWebGL, Scene.loaded. cbn.
  destruct ((768 <? width)%Z && supported); cbn; [|reflexivity].
  destruct canvas0; reflexivity.
Qed.

(** C7 on the code. Start on a 1024x768 WebGL-capable page, resize to 500
    wide, let a frame pass, resize to 1280x720. The narrow resize turns the
    flag off and hides the canvas; the wide resize turns the flag on, shows
    the canvas and recomputes the aspect ratio; but no animation callback is
    scheduled by it, and whatever events follow, none ever is and no frame
    is ever drawn: the loop is not resumed. *)
Theorem resize_back_loop_stopped :
  let w0 := Scene.init_tail (Scene.loaded 1024 768 true (Some "") true) in
  let narrow := Scene.step w0 (Scene.Resize 500 768) in
  let wide := Scene.run [Scene.Frame; Scene.Resize 1280 720] narrow in
  Scene.isWebGLEnabled w0 = true /\
  (Scene.isWebGLEnabled narrow = false /\ Scene.canvas narrow = Some "none") /\
  (Scene.isWebGLEnabled wide = true /\ Scene.canvas wide = Some "block" /\
   Scene.aspect <$> Scene.webglScene wide = Some (1280, 720)%Z) /\
  Scene.rafQueue wide = [] /\
  (forall evs,
     Scene.pending Scene.Animate (Scene.run evs wide) = 0%nat /\
     Scene.frames_drawn (Scene.run evs wide) = 0%nat).
Proof.
  cbv zeta. split; [reflexivity|]. split; [split; reflexivity|].
  split; [repeat split; reflexivity|]. split; [reflexivity|].
  intros evs. apply run_still. split; reflexivity.
Qed.

(** ** Contact form submission *)

Section Submission.
Import Contact.

Lemma validated_keeps f :
  name (validated f) = name f /\ id (validated f) = id f /\
  value (validated f) = value f /\ defaultValue (validated f) = defaultValue f.
Proof.
  unfold validated, validateField.
  destruct (required_control f); [|auto].
  destruct (validateField_verdict f) as [[|] m]; simpl; auto.
Qed.

Lemma find_validated (k : control -> bool) form :
  (forall f, k (validated f) = k f) ->
  List.find k (map validated form) = validated <$> List.find k form.
Proof.
  intros Hk. induction form as [|f form IH]; simpl; [reflexivity|].
  rewrite Hk. destruct (k f); [reflexivity|exact IH].
Qed.

Lemma formData_get_validated n form :
  formData_get n (map validated form) = formData_get n form.
Proof.
  unfold formData_get. rewrite find_validated.
  - destruct (List.find (fun f => String.eqb (name f) n) form) as [f|]; simpl;
      [|reflexivity].
    now destruct (validated_keeps f) as (_ & _ & -> & _).
  - intros f. now destruct (validated_keeps f) as (-> & _).
Qed.

Lemma control_by_id_validated i form : forall k,
  control_by_id i k (map validated form)
  = (fun kf => (fst kf, validated (snd kf))) <$> control_by_id i k form.
Proof.
  induction form as [|f form IH]; intros k; simpl; [reflexivity|].
  destruct (validated_keeps f) as (_ & -> & _).
  destruct (String.eqb (id f) i); [reflexivity|apply IH].
Qed.

(** Validation does not change what the submission reads from the page. *)
Lemma entry_validated key p t h ts l :
  entry key (mkPage (map validated (form p)) (elsewhere p) t h ts l) = entry key p.
Proof.
  unfold entry, getElementById. cbn [form elsewhere].
  rewrite formData_get_validated, control_by_id_validated.
  destruct (formData_get key (form p)) as [[|c v]|]; try reflexivity;
    destruct (control_by_id key 0 (form p)) as [[k f]|]; simpl;
    destruct (other_by_id key (elsewhere p)) as [o|]; try reflexivity;
    destruct (validated_keeps f) as (_ & _ & Hv & _);
    try destruct (before o <=? k)%nat; now rewrite ?Hv.
Qed.

Lemma clear_marks_unmarked (e : element) :
  ("is-valid" ∉ classList (clear_marks e)) /\
  ("is-invalid" ∉ classList (clear_marks e)).
Proof.
  unfold clear_marks, remove. simpl.
  rewrite !elem_of_difference, !elem_of_singleton. split.
  - intros [[_ H] _]. now apply H.
  - intros [_ H]. now apply H.
Qed.

Lemma cleared_form form f :
  In f (clear_decorations (reset form)) ->
  value f = defaultValue f /\ unmarked f.
Proof.
  unfold clear_decorations, reset. rewrite List.map_map, List.in_map_iff.
  intros (g & <- & _). unfold unmarked. simpl. split; [reflexivity|].
  destruct (clear_marks_unmarked g) as [H1 H2].
  split; [exact H1|]. split; [exact H2|].
  intros s. destruct (nextElementSibling g) as [e|]; simpl; [|discriminate].
  intros [= <-]. apply clear_marks_unmarked.
Qed.

Lemma elapse_single ms delay url p :
  timeouts p = [(delay, Navigate url)] ->
  ((ms < delay)%nat ->
     location_href (elapse ms p) = location_href p /\ log (elapse ms p) = log p) /\
  ((delay <= ms)%nat ->
     location_href (elapse ms p) = url /\
     log (elapse ms p) = log p ++ [Navigated url] /\
     timeouts (elapse ms p) = []).
Proof.
  intros Ht. unfold elapse. rewrite Ht. split; intros Hms.
  - rewrite !filter_cons, !filter_nil. simpl.
    destruct (decide (delay <= ms)%nat); [lia|].
    destruct (decide (ms < delay)%nat); [|lia]. simpl. auto.
  - rewrite !filter_cons, !filter_nil. simpl.
    destruct (decide (delay <= ms)%nat); [|lia].
    destruct (decide (ms < delay)%nat); [lia|]. simpl. auto.
Qed.

End Submission.

(** C8, as the code has it. On a submission that passes validation, with
    the three entries readable and encodable, the handler builds the mailto
    link with the URL-encoded subject "Portfolio Contact from {name}" and
    the URL-encoded body holding name, email and message, shows the toast,
    schedules the navigation 1000 ms ahead, and resets the form and clears
    the validation marks at once, before it returns: the location is still
    the old one then, stays so until 1000 ms have passed, and only then
    becomes the mailto link. *)
Theorem submission_sequence (p : Contact.page)
    (name email message subject body : jsstring) :
  fst (validateForm (Contact.form p)) = true ->
  Contact.entry "contactName" p = inl name ->
  Contact.entry "contactEmail" p = inl email ->
  Contact.entry "contactMessage" p = inl message ->
  Contact.encodeURIComponent (Contact.subject_text name) = Some subject ->
  Contact.encodeURIComponent (Contact.body_text name email message) = Some body ->
  let link := Contact.mailto subject body in
  let p1 := snd (Contact.on_submit p) in
  fst (Contact.on_submit p) = Contact.Normal /\
  Contact.toast p1 = true /\
  Contact.timeouts p1 = Contact.timeouts p ++ [(1000%nat, Contact.Navigate link)] /\
  Contact.location_href p1 = Contact.location_href p /\
  (forall f, In f (Contact.form p1) -> value f = defaultValue f /\ Contact.unmarked f) /\
  Contact.log p1 = Contact.log p ++
    [Contact.ToastShown; Contact.FormReset; Contact.DecorationsCleared] /\
  (Contact.timeouts p = [] ->
   (forall ms, (ms < 1000)%nat ->
      Contact.location_href (Contact.elapse ms p1) = Contact.location_href p) /\
   (forall ms, (1000 <= ms)%nat ->
      Contact.location_href (Contact.elapse ms p1) = link /\
      Contact.log (Contact.elapse ms p1) = Contact.log p ++
        [Contact.ToastShown; Contact.FormReset; Contact.DecorationsCleared;
         Contact.Navigated link])).
Proof.
  intros Hok Hn He Hm Hs Hb. cbv zeta.
  assert (Hsub : Contact.on_submit p =
    (Contact.Normal,
     Contact.mkPage
       (Contact.clear_decorations (Contact.reset (snd (validateForm (Contact.form p)))))
       (Contact.elsewhere p) true (Contact.location_href p)
       (Contact.timeouts p ++ [(1000%nat, Contact.Navigate (Contact.mailto subject body))])
       (Contact.log p ++
          [Contact.ToastShown; Contact.FormReset; Contact.DecorationsCleared]))).
  { unfold Contact.on_submit.
    unfold validateForm in *. rewrite validateForm_each_spec in *.
    cbn [fst snd andb] in *. rewrite Hok.
    unfold Contact.handleFormSubmission.
    rewrite !entry_validated, Hn, He, Hm, Hs, Hb.
    cbn [Contact.form Contact.elsewhere Contact.toast Contact.location_href
         Contact.timeouts Contact.log].
    reflexivity. }
  rewrite Hsub.
  cbn [fst snd Contact.form Contact.elsewhere Contact.toast Contact.location_href
       Contact.timeouts Contact.log].
  split; [reflexivity|]. split; [reflexivity|]. split; [reflexivity|].
  split; [reflexivity|]. split; [intros f; apply cleared_form|].
  split; [reflexivity|].
  intros Ht. rewrite Ht. cbn [app].
  pose proof (fun ms => elapse_single ms 1000 (Contact.mailto subject body)
     (Contact.mkPage
       (Contact.clear_decorations (Contact.reset (snd (validateForm (Contact.form p)))))
       (Contact.elsewhere p) true (Contact.location_href p)
       [(1000%nat, Contact.Navigate (Contact.mailto subject body))]
       (Contact.log p ++
          [Contact.ToastShown; Contact.FormReset; Contact.DecorationsCleared]))
     eq_refl) as Hel.
  split.
  - intros ms Hms. destruct (Hel ms) as [H _]. now destruct (H Hms).
  - intros ms Hms. destruct (Hel ms) as [_ H]. destruct (H Hms) as (H1 & H2 & _).
    split; [exact H1|]. rewrite H2.
    cbn [Contact.log]. now rewrite <- app_assoc.
Qed.

Lemma submission_sequence_witness :
  let link := lit "mailto:syed.asadullah@example.com?subject=Portfolio%20Contact%20from%20Ann%20Lee&body=Name%3A%20Ann%20Lee%0AEmail%3A%20ann%40example.com%0A%0AMessage%3A%0AHi%20%26%20bye" in
  fst (Contact.on_submit Contact.demo_page) = Contact.Normal /\
  Contact.location_href (snd (Contact.on_submit Contact.demo_page)) = lit "https://example.com/" /\
  Contact.location_href (Contact.elapse 1000 (snd (Contact.on_submit Contact.demo_page))) = link.
Proof.
  cbv zeta.
  pose proof (submission_sequence Contact.demo_page
                (lit "Ann Lee") (lit "ann@example.com") (lit "Hi & bye")
                (lit "Portfolio%20Contact%20from%20Ann%20Lee")
                (lit "Name%3A%20Ann%20Lee%0AEmail%3A%20ann%40example.com%0A%0AMessage%3A%0AHi%20%26%20bye")
                eq_refl eq_refl eq_refl eq_refl eq_refl eq_refl) as H.
  cbv zeta in H. destruct H as (H1 & _ & _ & H4 & _ & _ & H7).
  split; [exact H1|]. split; [exact H4|].
  exact (proj1 (proj2 (H7 eq_refl) 1000%nat (le_n _))).
Defined.

(** C8 as stated puts the reset after the navigation. On the sample page
    the form is already reset when the handler returns, with the location
    untouched, and in the log of the whole second the reset comes first. *)
Lemma submission_resets_before_navigation :
  let p1 := snd (Contact.on_submit Contact.demo_page) in
  let p2 := Contact.elapse 1000 p1 in
  map value (Contact.form p1) = [[]; []; []] /\
  Contact.location_href p1 = Contact.location_href Contact.demo_page /\
  Contact.happens_before Contact.is_navigation Contact.is_reset (Contact.log p2) = false /\
  Contact.happens_before Contact.is_reset Contact.is_navigation (Contact.log p2) = true.
Proof.
  cbv zeta. repeat split; vm_compute; reflexivity.
Qed.

(* ===================================================================== *)
(** * Further properties of the code *)
(* ===================================================================== *)

(** ** Validation, beyond the verdict cases *)

Section VerdictShape.

Lemma verdict_true_iff f :
  fst (validateField_verdict f) = true <->
  (required f = true -> trim (value f) <> []) /\
  (type f = "email" -> trim (value f) <> [] -> email_shape (trim (value f))).
Proof.
  unfold validateField_verdict. cbv zeta.
  destruct (truthy (trim (value f))) eqn:Hv.
  - apply truthy_true_iff in Hv. rewrite andb_false_r, andb_true_r.
    destruct (String.eqb (type f) "email") eqn:Ht.
    + apply String.eqb_eq in Ht.
      destruct (test emailRegex (trim (value f))) eqn:He; simpl.
      * apply emailRegex_shape in He. tauto.
      * split; [discriminate|]. intros [_ H].
        apply emailRegex_shape in H; [congruence|assumption|assumption].
    + apply String.eqb_neq in Ht. simpl. tauto.
  - apply truthy_false_iff in Hv. rewrite andb_true_r, andb_false_r.
    destruct (required f); simpl.
    + split; [discriminate|]. intros [H _]. exfalso. now apply H.
    + split; [|reflexivity]. intros _. split; [discriminate|]. congruence.
Qed.

Lemma not_space_at_not_at c : not_space_at c = true -> c <> 0x40.
Proof.
  unfold not_space_at. intros H ->.
  rewrite orb_true_r in H. discriminate.
Qed.

Lemma not_space_at_not_space c : not_space_at c = true -> is_js_space c = false.
Proof.
  unfold not_space_at. destruct (is_js_space c); [discriminate|reflexivity].
Qed.

Lemma count_at_none s :
  Forall (fun c => not_space_at c = true) s -> count_occ N.eq_dec s 0x40 = 0%nat.
Proof.
  induction 1 as [|c s Hc _ IH]; simpl; [reflexivity|].
  destruct (N.eq_dec c 0x40) as [E|_]; [|exact IH].
  now apply not_space_at_not_at in Hc.
Qed.

End VerdictShape.

(** X1. For a control of type email whose trimmed value is not empty,
    [validateField] answers true exactly when the trimmed value reads
    [local@domain.tail], the three parts non-empty and free of whitespace
    and of [@] (the required attribute plays no part then). *)
Theorem email_field_valid_iff (field : control) :
  type field = "email" -> trim (value field) <> [] ->
  (fst (validateField field) = true <-> email_shape (trim (value field))).
Proof.
  intros Ht Hv. rewrite validateField_fst, verdict_true_iff. split.
  - intros [_ H]. now apply H.
  - intros H. split; auto.
Qed.

Lemma email_field_valid_iff_witness :
  email_shape (lit "ann@example.com") /\
  fst (validateField
         (mkControl Input "email" true "contactEmail" "contactEmail"
            (lit "  ann@example.com ") [] (mkElement ∅ []) None)) = true.
Proof.
  split; [|reflexivity].
  apply (proj1 (email_field_valid_iff
           (mkControl Input "email" true "contactEmail" "contactEmail"
              (lit "  ann@example.com ") [] (mkElement ∅ []) None)
           eq_refl ltac:(discriminate))).
  reflexivity.
Defined.

(** X2. Every string the email pattern accepts holds exactly one [@], no
    whitespace at all, and at least five code units. *)
Theorem emailRegex_accepts_one_at (s : jsstring) :
  test emailRegex s = true ->
  count_occ N.eq_dec s 0x40 = 1%nat /\
  Forall (fun c => is_js_space c = false) s /\
  (5 <= length s)%nat.
Proof.
  intros H. apply emailRegex_shape in H.
  destruct H as (l & d & t & -> & Hl & Hd & Ht & Hall).
  rewrite !Forall_app in Hall. destruct Hall as (Fl & Fd & Ft).
  split; [|split].
  - rewrite count_occ_app. simpl. rewrite count_occ_app. simpl.
    rewrite !count_at_none by assumption. reflexivity.
  - rewrite Forall_app. split.
    + exact (List.Forall_impl _ not_space_at_not_space Fl).
    + constructor; [reflexivity|]. rewrite Forall_app. split.
      * exact (List.Forall_impl _ not_space_at_not_space Fd).
      * constructor; [reflexivity|].
        exact (List.Forall_impl _ not_space_at_not_space Ft).
  - rewrite length_app. simpl. rewrite length_app. simpl.
    destruct l; [congruence|]. destruct d; [congruence|]. destruct t; [congruence|].
    simpl. lia.
Qed.

Lemma emailRegex_accepts_one_at_witness :
  count_occ N.eq_dec (lit "a@b.co") 0x40 = 1%nat /\
  Forall (fun c => is_js_space c = false) (lit "a@b.co") /\
  (5 <= length (lit "a@b.co"))%nat.
Proof. apply emailRegex_accepts_one_at. reflexivity. Defined.

Section Padding.

Lemma all_space_app a b : all_space a -> all_space b -> all_space (a ++ b).
Proof. unfold all_space. intros Ha Hb. apply Forall_app. auto. Qed.

Lemma all_space_rev a : all_space a -> all_space (rev a).
Proof. unfold all_space. intros Ha. now apply Forall_rev. Qed.

Lemma trimStart_skip a v : all_space a -> trimStart (a ++ v) = trimStart v.
Proof.
  induction 1 as [|c a Hc _ IH]; simpl; [reflexivity|]. now rewrite Hc.
Qed.

Lemma trimStart_keep_tail v b :
  trimStart v <> [] -> trimStart (v ++ b) = trimStart v ++ b.
Proof.
  induction v as [|c v IH]; simpl; [congruence|].
  destruct (is_js_space c); [exact IH|reflexivity].
Qed.

Lemma trimEnd_skip u b : all_space b -> trimEnd (u ++ b) = trimEnd u.
Proof.
  intros Hb. unfold trimEnd. rewrite rev_app_distr.
  now rewrite trimStart_skip by now apply all_space_rev.
Qed.

Lemma trim_padding a v b :
  all_space a -> all_space b -> trim (a ++ v ++ b) = trim v.
Proof.
  intros Ha Hb. unfold trim. rewrite trimStart_skip by assumption.
  destruct (trimStart v) as [|c t] eqn:Hv.
  - apply trimStart_nil_inv in Hv.
    rewrite (trimStart_all_space (v ++ b)) by now apply all_space_app.
    reflexivity.
  - rewrite trimStart_keep_tail by congruence. rewrite Hv.
    now apply trimEnd_skip.
Qed.

End Padding.

(** X3. Whitespace typed before or after a value does not change what
    [validateField] decides or the message it picks. *)
Theorem validateField_ignores_padding (field : control) (a b : jsstring) :
  all_space a -> all_space b ->
  validateField_verdict (with_value field (a ++ value field ++ b))
  = validateField_verdict field.
Proof.
  intros Ha Hb. apply verdict_with_value. now apply trim_padding.
Qed.

Lemma validateField_ignores_padding_witness :
  validateField_verdict
    (with_value
       (mkControl Input "email" true "contactEmail" "contactEmail"
          (lit "a@b.co") [] (mkElement ∅ []) None)
       ([0x20; 0x09] ++ lit "a@b.co" ++ [0x0A; 0x3000]))
  = validateField_verdict
      (mkControl Input "email" true "contactEmail" "contactEmail"
         (lit "a@b.co") [] (mkElement ∅ []) None).
Proof.
  apply (validateField_ignores_padding
           (mkControl Input "email" true "contactEmail" "contactEmail"
              (lit "a@b.co") [] (mkElement ∅ []) None));
    repeat constructor.
Defined.

Section Marks.

Lemma mark_tokens (a b : string) (X : gset string) :
  a <> b ->
  (a ∈ {[a]} ∪ X ∖ {[b]}) /\ (b ∉ {[a]} ∪ X ∖ {[b]}) /\
  (forall tok, tok <> a -> tok <> b -> (tok ∈ {[a]} ∪ X ∖ {[b]} <-> tok ∈ X)).
Proof.
  intros Hab. split; [|split].
  - apply elem_of_union. left. now apply elem_of_singleton.
  - rewrite elem_of_union, elem_of_difference, !elem_of_singleton.
    intros [H|[_ H]]; congruence.
  - intros tok Ha Hb.
    rewrite elem_of_union, elem_of_difference, !elem_of_singleton. tauto.
Qed.

Lemma mark_again (a b : string) (X : gset string) :
  {[a]} ∪ ({[a]} ∪ X ∖ {[b]}) ∖ {[b]} = {[a]} ∪ X ∖ {[b]}.
Proof.
  apply set_eq. intros tok.
  rewrite !elem_of_union, !elem_of_difference, !elem_of_union,
          !elem_of_difference, !elem_of_singleton. tauto.
Qed.

Lemma write_feedback_twice m fb :
  write_feedback m (write_feedback m fb) = write_feedback m fb.
Proof.
  destruct fb as [e|]; simpl; [|reflexivity].
  destruct (contains "invalid-feedback" e) eqn:He; simpl.
  - unfold contains in *. simpl. now rewrite He.
  - now rewrite He.
Qed.

End Marks.

(** X4. [validateField] is idempotent: run on the control it has just
    left, it returns the same flag and leaves the control, its marks and
    the feedback text exactly as they are. *)
Theorem validateField_idempotent (field : control) :
  validateField (snd (validateField field)) = validateField field.
Proof.
  unfold validateField.
  destruct (validateField_verdict field) as [[|] m] eqn:Hv; cbn [snd].
  - assert (Hv' : validateField_verdict
                    (with_node field (add "is-valid" (remove "is-invalid" field)))
                  = (true, m)) by exact Hv.
    rewrite Hv'. f_equal. unfold with_node, add, remove. simpl.
    now rewrite mark_again.
  - assert (Hv' : validateField_verdict
                    (with_sibling
                       (with_node field (add "is-invalid" (remove "is-valid" field)))
                       (write_feedback m
                          (nextElementSibling
                             (with_node field
                                (add "is-invalid" (remove "is-valid" field))))))
                  = (false, m)) by exact Hv.
    rewrite Hv'. f_equal. unfold with_sibling, with_node, add, remove. simpl.
    now rewrite mark_again, write_feedback_twice.
Qed.

(** X5. After [validateField] the control carries exactly one of the two
    marks, [is-valid] when the answer is true and [is-invalid] when it is
    false; every other class token, and the value, type, name, id, required
    flag and default value of the control, are as before. *)
Theorem validateField_marks (field : control) :
  let r := validateField field in
  ("is-valid" ∈ classList (snd r) <-> fst r = true) /\
  ("is-invalid" ∈ classList (snd r) <-> fst r = false) /\
  (forall tok, tok <> "is-valid" -> tok <> "is-invalid" ->
     (tok ∈ classList (snd r) <-> tok ∈ classList field)) /\
  value (snd r) = value field /\ type (snd r) = type field /\
  required (snd r) = required field /\ name (snd r) = name field /\
  id (snd r) = id field /\ defaultValue (snd r) = defaultValue field /\
  tagName (snd r) = tagName field.
Proof.
  cbv zeta. unfold validateField.
  destruct (validateField_verdict field) as [[|] m]; simpl.
  - destruct (mark_tokens "is-valid" "is-invalid" (classList field))
      as (H1 & H2 & H3); [discriminate|].
    split; [split; auto|].
    split; [split; [intros H; exfalso; exact (H2 H)|discriminate]|].
    split; [exact H3|]. repeat split; reflexivity.
  - destruct (mark_tokens "is-invalid" "is-valid" (classList field))
      as (H1 & H2 & H3); [discriminate|].
    split; [split; [intros H; exfalso; exact (H2 H)|discriminate]|].
    split; [split; auto|].
    split; [intros tok Ha Hb; now apply H3|]. repeat split; reflexivity.
Qed.

Section FormVerdict.

Lemma forallb_required_iff (form : list control) :
  forallb (fun f => fst (validateField f)) (List.filter required form) = true <->
  Forall (fun f => required f = true -> fst (validateField_verdict f) = true) form.
Proof.
  induction form as [|f form IH]; simpl; [split; [constructor|reflexivity]|].
  destruct (required f) eqn:Hr; simpl.
  - rewrite andb_true_iff, IH, validateField_fst. split.
    + intros [H1 H2]. constructor; auto.
    + intros H. inversion H; subst. auto.
  - rewrite IH. split.
    + intros H. constructor; [congruence|assumption].
    + intros H. now inversion H.
Qed.

End FormVerdict.

(** X6. [validateForm] answers true exactly when every required control
    has a value that is not blank and, if the control is of type email,
    reads [local@domain.tail]; controls that are not required never count. *)
Theorem validateForm_true_iff (form : list control) :
  fst (validateForm form) = true <->
  Forall (fun f => required f = true ->
            trim (value f) <> [] /\
            (type f = "email" -> email_shape (trim (value f)))) form.
Proof.
  unfold validateForm. rewrite validateForm_each_spec. cbn [fst]. rewrite andb_true_l.
  assert (E : List.filter required_control form = List.filter required form).
  { apply filter_ext. intros f. apply required_control_required. }
  rewrite E, forallb_required_iff. split; intros H.
  - eapply List.Forall_impl; [|exact H]. intros f Hf Hr.
    destruct (proj1 (verdict_true_iff f) (Hf Hr)) as [H1 H2].
    split; auto.
  - eapply List.Forall_impl; [|exact H]. intros f Hf Hr.
    apply verdict_true_iff. destruct (Hf Hr) as [H1 H2]. split; auto.
Qed.

(** ** Live re-validation *)

Section LiveFacts.

Lemma verdict_ext (f g : control) :
  value f = value g -> type f = type g -> required f = required g ->
  validateField_verdict f = validateField_verdict g.
Proof.
  intros Hv Ht Hr. unfold validateField_verdict. now rewrite Hv, Ht, Hr.
Qed.

Lemma contains_false tok (e : element) :
  tok ∉ classList e -> contains tok e = false.
Proof. intros H. unfold contains. now apply bool_decide_eq_false. Qed.

Lemma contains_true tok (e : element) :
  tok ∈ classList e -> contains tok e = true.
Proof. intros H. unfold contains. now apply bool_decide_eq_true. Qed.

Lemma validateField_invalid_result (f : control) m :
  validateField_verdict f = (false, m) ->
  snd (validateField f) =
    with_sibling (with_node f (add "is-invalid" (remove "is-valid" f)))
      (write_feedback m (nextElementSibling f)).
Proof. intros H. unfold validateField. now rewrite H. Qed.

Lemma validateField_valid_result (f : control) m :
  validateField_verdict f = (true, m) ->
  snd (validateField f) = with_node f (add "is-valid" (remove "is-invalid" f)).
Proof. intros H. unfold validateField. now rewrite H. Qed.

Lemma last_default {A} (l : list A) (x d d' : A) :
  List.last (x :: l) d = List.last (x :: l) d'.
Proof.
  revert x. induction l as [|y l IH]; intros x; [reflexivity|].
  change (List.last (y :: l) d = List.last (y :: l) d'). apply IH.
Qed.

Lemma edit_unmarked v (input : control) :
  "is-invalid" ∉ classList input -> Live.edit v input = with_value input v.
Proof.
  intros H. unfold Live.edit, Live.on_input.
  now rewrite (contains_false _ (with_value input v)).
Qed.

End LiveFacts.

(** X7. A control whose feedback element shows an error, once edited to a
    value that validates, switches from the invalid to the valid mark, but
    the feedback element keeps the text of the earlier error: nothing
    clears it. *)
Theorem corrected_field_keeps_old_message
    (input : control) (fb : element) (v : jsstring) :
  nextElementSibling input = Some fb ->
  contains "invalid-feedback" fb = true ->
  fst (validateField input) = false ->
  fst (validateField (with_value input v)) = true ->
  let c := Live.edit v (Live.on_blur input) in
  ("is-valid" ∈ classList c) /\ ("is-invalid" ∉ classList c) /\ value c = v /\
  textContent <$> nextElementSibling c = Some (snd (validateField_verdict input)).
Proof.
  intros Hfb Hc Hbad Hgood. cbv zeta.
  rewrite validateField_fst in Hbad, Hgood.
  destruct (validateField_verdict input) as [ok m] eqn:Hv.
  cbn [fst snd] in *. subst ok.
  unfold Live.edit, Live.on_blur, Live.on_input.
  rewrite (validateField_invalid_result input m Hv).
  set (c1 := with_value _ v).
  assert (Hcl : classList c1 = {["is-invalid"]} ∪ classList input ∖ {["is-valid"]})
    by reflexivity.
  assert (Hsib : nextElementSibling c1 = Some (set_textContent m fb)).
  { subst c1. cbn [with_value with_sibling with_node nextElementSibling].
    rewrite Hfb. cbn [write_feedback]. now rewrite Hc. }
  assert (Hmark : contains "is-invalid" c1 = true).
  { apply contains_true. rewrite Hcl.
    apply elem_of_union. left. now apply elem_of_singleton. }
  rewrite Hmark.
  assert (Hv1 : validateField_verdict c1 = validateField_verdict (with_value input v))
    by (apply verdict_ext; reflexivity).
  destruct (validateField_verdict (with_value input v)) as [ok' m'].
  cbn [fst] in Hgood. subst ok'.
  rewrite (validateField_valid_result c1 m' Hv1).
  cbn [with_node classList node add remove value nextElementSibling].
  rewrite Hcl, Hsib.
  destruct (mark_tokens "is-valid" "is-invalid"
              ({["is-invalid"]} ∪ classList input ∖ {["is-valid"]}))
    as (H1 & H2 & _); [discriminate|].
  split; [exact H1|]. split; [exact H2|]. split; reflexivity.
Qed.

Lemma corrected_field_keeps_old_message_witness :
  let input := mkControl Input "email" true "contactEmail" "contactEmail"
                 (lit "a@b") [] (mkElement ∅ [])
                 (Some (mkElement {["invalid-feedback"]} [])) in
  let c := Live.edit (lit "a@b.co") (Live.on_blur input) in
  ("is-valid" ∈ classList c) /\ ("is-invalid" ∉ classList c) /\
  value c = lit "a@b.co" /\
  textContent <$> nextElementSibling c = Some (snd (validateField_verdict input)).
Proof.
  cbv zeta.
  apply (corrected_field_keeps_old_message _ (mkElement {["invalid-feedback"]} []));
    reflexivity.
Defined.

(** X8. While a control does not carry the invalid mark, typing into it,
    however often and whatever the text, changes its value and nothing
    else: no mark is added and no feedback text is written. *)
Theorem typing_never_marks (input : control) (vs : list jsstring) :
  "is-invalid" ∉ classList input ->
  let c := fold_left (fun c v => Live.edit v c) vs input in
  classList c = classList input /\
  nextElementSibling c = nextElementSibling input /\
  value c = List.last vs (value input).
Proof.
  cbv zeta. revert input. induction vs as [|v vs IH]; intros input H; [auto|].
  cbn [fold_left]. rewrite (edit_unmarked v input H).
  destruct (IH (with_value input v) H) as (H1 & H2 & H3).
  rewrite H1, H2, H3. split; [reflexivity|]. split; [reflexivity|].
  destruct vs as [|j vs]; [reflexivity|].
  change (List.last (v :: j :: vs) (value input))
    with (List.last (j :: vs) (value input)).
  apply last_default.
Qed.

Lemma typing_never_marks_witness :
  let input := mkControl Input "email" true "contactEmail" "contactEmail"
                 [] [] (mkElement {["form-control"]} [])
                 (Some (mkElement {["invalid-feedback"]} [])) in
  let c := fold_left (fun c v => Live.edit v c) [lit "a"; lit "a@"; lit "a@b"] input in
  classList c = classList input /\
  nextElementSibling c = nextElementSibling input /\
  value c = lit "a@b".
Proof.
  cbv zeta.
  apply (typing_never_marks
           (mkControl Input "email" true "contactEmail" "contactEmail"
              [] [] (mkElement {["form-control"]} [])
              (Some (mkElement {["invalid-feedback"]} [])))
           [lit "a"; lit "a@"; lit "a@b"]).
  simpl. rewrite elem_of_singleton. discriminate.
Defined.

(** ** Submissions that do not go through *)

Section SubmissionEdges.
Import Contact.

Lemma map_value_validated form : map value (map validated form) = map value form.
Proof.
  rewrite List.map_map. apply map_ext. intros f.
  now destruct (validated_keeps f) as (_ & _ & -> & _).
Qed.

Lemma find_nothing {A} (k : A -> bool) (l : list A) :
  (forall x, In x l -> k x = false) -> List.find k l = None.
Proof.
  induction l as [|x l IH]; intros H; simpl; [reflexivity|].
  rewrite (H x) by now left. apply IH. intros y Hy. apply H. now right.
Qed.

Lemma control_by_id_nothing key form : forall k,
  (forall f, In f form -> id f <> key) -> control_by_id key k form = None.
Proof.
  induction form as [|f form IH]; intros k H; simpl; [reflexivity|].
  assert (E : String.eqb (id f) key = false)
    by (apply String.eqb_neq, H; now left).
  rewrite E. apply IH. intros g Hg. apply H. now right.
Qed.

Lemma other_by_id_nothing key os :
  (forall o, In o os -> other_id o <> key) -> other_by_id key os = None.
Proof.
  induction os as [|o os IH]; intros H; simpl; [reflexivity|].
  rewrite IH by (intros x Hx; apply H; now right).
  assert (E : String.eqb (other_id o) key = false)
    by (apply String.eqb_neq, H; now left).
  now rewrite E.
Qed.

Lemma entry_missing key p :
  (forall f, In f (form p) -> name f <> key /\ id f <> key) ->
  (forall o, In o (elsewhere p) -> other_id o <> key) ->
  entry key p = inr TypeError.
Proof.
  intros H Ho. unfold entry, formData_get, getElementById.
  assert (H1 : List.find (fun f => String.eqb (name f) key) (form p) = None).
  { apply find_nothing. intros f Hf. apply String.eqb_neq. now apply H. }
  rewrite H1, control_by_id_nothing, other_by_id_nothing; auto.
  intros f Hf. now apply H.
Qed.

(** A scalar value string always encodes. *)
Lemma encode_scalar_le n : forall s, (length s <= n)%nat ->
  exists x, encodeURIComponent (to_scalar s) = Some x.
Proof.
  assert (F : forall t, (exists x, encodeURIComponent t = Some x) ->
              exists x, encodeURIComponent (0xFFFD :: t) = Some x).
  { intros t (x & Hx). cbn [encodeURIComponent].
    change (in_range 0xDC00 0xDFFF 0xFFFD) with false.
    change (in_range 0xD800 0xDBFF 0xFFFD) with false.
    cbv iota. rewrite Hx. eexists. reflexivity. }
  induction n as [|n IH]; intros s Hn.
  - destruct s; [|simpl in Hn; lia]. exists []. reflexivity.
  - destruct s as [|c rest]; [exists []; reflexivity|].
    cbn [to_scalar]. simpl in Hn.
    destruct (in_range 0xDC00 0xDFFF c) eqn:Hlow.
    + apply F, IH. lia.
    + destruct (in_range 0xD800 0xDBFF c) eqn:Hhigh.
      * destruct rest as [|d rest'].
        -- apply (F []). exists []. reflexivity.
        -- destruct (in_range 0xDC00 0xDFFF d) eqn:Hd.
           ++ destruct (IH rest') as (x & Hx); [simpl in Hn; lia|].
              cbn [encodeURIComponent]. rewrite Hlow, Hhigh, Hd, Hx.
              eexists. reflexivity.
           ++ apply F, IH. lia.
      * destruct (IH rest) as (x & Hx); [lia|].
        cbn [encodeURIComponent]. rewrite Hlow, Hhigh, Hx. eexists. reflexivity.
Qed.

(** Encoding a text that encodes, followed by another text. *)
Lemma encode_app_le n : forall a b x, (length a <= n)%nat ->
  encodeURIComponent a = Some x ->
  encodeURIComponent (a ++ b) = option_map (app x) (encodeURIComponent b).
Proof.
  induction n as [|n IH]; intros a b x Hn Ha.
  - destruct a; [|simpl in Hn; lia]. injection Ha as <-. cbn [app].
    now destruct (encodeURIComponent b).
  - destruct a as [|c rest].
    + injection Ha as <-. cbn [app]. now destruct (encodeURIComponent b).
    + cbn [encodeURIComponent app] in *.
      destruct (in_range 0xDC00 0xDFFF c); [discriminate|].
      destruct (in_range 0xD800 0xDBFF c).
      * destruct rest as [|d rest']; [discriminate|]. cbn [app].
        destruct (in_range 0xDC00 0xDFFF d); [|discriminate].
        destruct (encodeURIComponent rest') as [y|] eqn:Hy; [|discriminate].
        injection Ha as <-.
        rewrite (IH rest' b y) by (simpl in Hn; lia || assumption).
        destruct (encodeURIComponent b); simpl; [|reflexivity].
        now rewrite <- app_assoc.
      * destruct (encodeURIComponent rest) as [y|] eqn:Hy; [|discriminate].
        injection Ha as <-.
        rewrite (IH rest b y) by (simpl in Hn; lia || assumption).
        destruct (encodeURIComponent b); simpl; [|reflexivity].
        now rewrite <- app_assoc.
Qed.

Lemma encode_app a b x :
  encodeURIComponent a = Some x ->
  encodeURIComponent (a ++ b) = option_map (app x) (encodeURIComponent b).
Proof. apply (encode_app_le (length a)). lia. Qed.

End SubmissionEdges.

(** X9. A submission that fails validation stops there: the handler ends
    normally, no toast is shown, no navigation is scheduled, the location
    and the log are untouched and every control keeps its value; the form
    is left as [validateForm] marked it. *)
Theorem failed_submission_changes_no_state (p : Contact.page) :
  fst (validateForm (Contact.form p)) = false ->
  let r := Contact.on_submit p in
  fst r = Contact.Normal /\
  Contact.form (snd r) = snd (validateForm (Contact.form p)) /\
  map value (Contact.form (snd r)) = map value (Contact.form p) /\
  Contact.toast (snd r) = Contact.toast p /\
  Contact.timeouts (snd r) = Contact.timeouts p /\
  Contact.location_href (snd r) = Contact.location_href p /\
  Contact.log (snd r) = Contact.log p.
Proof.
  intros Hbad. cbv zeta. unfold Contact.on_submit.
  pose proof (map_value_validated (Contact.form p)) as Hval.
  unfold validateForm in *. rewrite validateForm_each_spec in *.
  cbn [fst snd andb] in *. rewrite Hbad. cbn [fst snd].
  cbn [Contact.form Contact.elsewhere Contact.toast Contact.timeouts
       Contact.location_href Contact.log].
  repeat split; auto.
Qed.

Lemma failed_submission_changes_no_state_witness :
  let p := Contact.mkPage
             [Contact.demo_control Input "text" "contactName" (lit "Ann");
              Contact.demo_control Input "email" "contactEmail" (lit "ann@");
              Contact.demo_control Textarea "textarea" "contactMessage" []]
             [] false (lit "https://example.com/") [] [] in
  fst (Contact.on_submit p) = Contact.Normal /\
  map value (Contact.form (snd (Contact.on_submit p))) = [lit "Ann"; lit "ann@"; []] /\
  Contact.toast (snd (Contact.on_submit p)) = false /\
  Contact.timeouts (snd (Contact.on_submit p)) = [].
Proof.
  cbv zeta.
  pose proof (failed_submission_changes_no_state
    (Contact.mkPage
       [Contact.demo_control Input "text" "contactName" (lit "Ann");
        Contact.demo_control Input "email" "contactEmail" (lit "ann@");
        Contact.demo_control Textarea "textarea" "contactMessage" []]
       [] false (lit "https://example.com/") [] []) eq_refl) as H.
  cbv zeta in H. destruct H as (H1 & _ & H3 & H4 & H5 & _).
  split; [exact H1|]. split; [exact H3|]. split; [exact H4|exact H5].
Defined.

(** X10. If the form has no control whose name or id is one of
    [contactName], [contactEmail], [contactMessage], and no other element
    of the document has that id either, the submission handler throws a
    TypeError before it has shown, scheduled or reset anything. *)
Theorem submission_without_field (p : Contact.page) (key : string) :
  key = "contactName" \/ key = "contactEmail" \/ key = "contactMessage" ->
  (forall f, In f (Contact.form p) -> name f <> key /\ id f <> key) ->
  (forall o, In o (Contact.elsewhere p) -> Contact.other_id o <> key) ->
  Contact.handleFormSubmission p = (Contact.Throw Contact.TypeError, p).
Proof.
  intros Hkey Hmiss Hother. pose proof (entry_missing key p Hmiss Hother) as E.
  unfold Contact.handleFormSubmission.
  destruct Hkey as [-> | [-> | ->]]; rewrite E.
  - reflexivity.
  - now destruct (Contact.entry "contactName" p).
  - destruct (Contact.entry "contactName" p);
      now destruct (Contact.entry "contactEmail" p).
Qed.

Lemma submission_without_field_witness :
  let p := Contact.mkPage
             [Contact.demo_control Input "text" "contactName" (lit "Ann");
              Contact.demo_control Input "email" "contactEmail" (lit "a@b.co")]
             [Contact.mkOther "contactToast" None 2]
             false (lit "https://example.com/") [] [] in
  Contact.handleFormSubmission p = (Contact.Throw Contact.TypeError, p).
Proof.
  cbv zeta. apply (submission_without_field _ "contactMessage").
  - right. right. reflexivity.
  - simpl. intros f [<- | [<- | []]]; simpl; split; discriminate.
  - simpl. intros o [<- | []]. simpl. discriminate.
Defined.

(** [getElementById] takes the first element in document order, inside the
    form or not. *)
Example getElementById_document_order :
  let c := Contact.demo_control Input "text" "contactName" (lit "Ann") in
  let early := Contact.mkOther "contactName" (Some (lit "x")) 0 in
  let late := Contact.mkOther "contactName" (Some (lit "y")) 1 in
  Contact.getElementById "contactName"
    (Contact.mkPage [c] [late; early] false [] [] []) = Some (inr early) /\
  Contact.getElementById "contactName"
    (Contact.mkPage [c] [late] false [] [] []) = Some (inl c).
Proof. cbv zeta. split; reflexivity. Qed.

(** An element of that id outside the form is enough for the handler to
    go on: its [value], here [undefined], is what the link then carries. *)
Example submission_reads_other_element :
  let p := Contact.mkPage
             [Contact.demo_control Input "text" "contactName" (lit "Ann");
              Contact.demo_control Input "email" "contactEmail" (lit "a@b.co")]
             [Contact.mkOther "contactMessage" None 0]
             false (lit "https://example.com/") [] [] in
  fst (Contact.handleFormSubmission p) = Contact.Normal /\
  Contact.entry "contactMessage" p = inl (lit "undefined") /\
  Contact.toast (snd (Contact.handleFormSubmission p)) = true.
Proof. cbv zeta. repeat split; reflexivity. Qed.

(** X11. If the name the handler reads cannot be URI-encoded (it holds an
    unpaired surrogate, which only a value read through
    [getElementById(...).value] can, a [FormData] value being a scalar value
    string), the submission handler throws a URIError before it has shown,
    scheduled or reset anything. *)
Theorem submission_with_unpaired_surrogate
    (p : Contact.page) (name email message : jsstring) :
  Contact.entry "contactName" p = inl name ->
  Contact.entry "contactEmail" p = inl email ->
  Contact.entry "contactMessage" p = inl message ->
  Contact.encodeURIComponent name = None ->
  Contact.handleFormSubmission p = (Contact.Throw Contact.URIError, p).
Proof.
  intros Hn He Hm Hbad. unfold Contact.handleFormSubmission.
  rewrite Hn, He, Hm. unfold Contact.subject_text.
  rewrite (encode_app (lit "Portfolio Contact from ") name
             (lit "Portfolio%20Contact%20from%20") eq_refl).
  rewrite Hbad. reflexivity.
Qed.

Lemma submission_with_unpaired_surrogate_witness :
  let p := Contact.mkPage
             [mkControl Input "text" true "" "contactName" [0x41; 0xD83D] []
                (mkElement ∅ []) None;
              Contact.demo_control Input "email" "contactEmail" (lit "a@b.co");
              Contact.demo_control Textarea "textarea" "contactMessage" (lit "Hi")]
             [] false (lit "https://example.com/") [] [] in
  Contact.handleFormSubmission p = (Contact.Throw Contact.URIError, p).
Proof.
  cbv zeta.
  apply (submission_with_unpaired_surrogate _ [0x41; 0xD83D] (lit "a@b.co") (lit "Hi"));
    reflexivity.
Defined.

(** The same text in a control that has the name [contactName] reaches the
    handler through [FormData], with U+FFFD in place of the surrogate, and
    the submission goes through. *)
Example submission_named_control_scalar :
  let p := Contact.mkPage
             [Contact.demo_control Input "text" "contactName" [0x41; 0xD83D];
              Contact.demo_control Input "email" "contactEmail" (lit "a@b.co");
              Contact.demo_control Textarea "textarea" "contactMessage" (lit "Hi")]
             [] false (lit "https://example.com/") [] [] in
  Contact.entry "contactName" p = inl [0x41; 0xFFFD] /\
  fst (Contact.handleFormSubmission p) = Contact.Normal /\
  Contact.toast (snd (Contact.handleFormSubmission p)) = true.
Proof. cbv zeta. repeat split; reflexivity. Qed.

(** ** The mailto link *)

Section LinkFacts.
Import Contact Link.

Lemma delimiter_false c :
  c <> 0x26 -> c <> 0x3F -> c <> 0x23 -> c <> 0x3D -> c <> 0x20 ->
  uri_delimiter c = false.
Proof.
  intros H1 H2 H3 H4 H5. unfold uri_delimiter.
  apply N.eqb_neq in H1, H2, H3, H4, H5. now rewrite H1, H2, H3, H4, H5.
Qed.

Lemma unreserved_not_delimiter c : uri_unreserved c = true -> uri_delimiter c = false.
Proof.
  intros H. apply delimiter_false; intros ->; vm_compute in H; discriminate.
Qed.

Lemma hex_digit_not_delimiter d : uri_delimiter (hex_digit d) = false.
Proof.
  unfold hex_digit. destruct (N.ltb_spec d 10); apply delimiter_false; lia.
Qed.

Lemma percent_not_delimiter o :
  Forall (fun c => uri_delimiter c = false) (percent o).
Proof.
  unfold percent. repeat constructor; apply hex_digit_not_delimiter.
Qed.

Lemma encode_point_not_delimiter cp :
  Forall (fun c => uri_delimiter c = false) (encode_point cp).
Proof.
  unfold encode_point. destruct (uri_unreserved cp) eqn:Hu.
  - constructor; [now apply unreserved_not_delimiter|constructor].
  - induction (utf8 cp) as [|o l IH]; cbn [map concat]; [constructor|].
    apply Forall_app. split; [apply percent_not_delimiter|exact IH].
Qed.

Lemma encode_not_delimiter_le n : forall s x, (length s <= n)%nat ->
  encodeURIComponent s = Some x -> Forall (fun c => uri_delimiter c = false) x.
Proof.
  induction n as [|n IH]; intros s x Hn Hs.
  - destruct s; [|simpl in Hn; lia]. injection Hs as <-. constructor.
  - destruct s as [|c rest]; [injection Hs as <-; constructor|].
    cbn [encodeURIComponent] in Hs.
    destruct (in_range 0xDC00 0xDFFF c); [discriminate|].
    destruct (in_range 0xD800 0xDBFF c).
    + destruct rest as [|d rest']; [discriminate|].
      destruct (in_range 0xDC00 0xDFFF d); [|discriminate].
      destruct (encodeURIComponent rest') as [y|] eqn:Hy; [|discriminate].
      injection Hs as <-. apply Forall_app. split.
      * apply encode_point_not_delimiter.
      * apply (IH rest'); [simpl in Hn; lia|assumption].
    + destruct (encodeURIComponent rest) as [y|] eqn:Hy; [|discriminate].
      injection Hs as <-. apply Forall_app. split.
      * apply encode_point_not_delimiter.
      * apply (IH rest); [simpl in Hn; lia|assumption].
Qed.

Lemma count_no_delimiter k x :
  uri_delimiter k = true ->
  Forall (fun c => uri_delimiter c = false) x -> count_occ N.eq_dec x k = 0%nat.
Proof.
  intros Hk. induction 1 as [|c x Hc _ IH]; simpl; [reflexivity|].
  destruct (N.eq_dec c k) as [->|_]; [congruence|exact IH].
Qed.

End LinkFacts.

(** X12. Whatever the visitor typed, the encoded subject and body hold
    none of [&], [?], [#], [=] or a space, so the link the handler builds
    has exactly one [?] and one [&] (its own), two [=], no [#] and no
    space: typed text cannot add a parameter to the mailto address. *)
Theorem mailto_link_delimiters (s1 s2 subject body : jsstring) :
  Contact.encodeURIComponent s1 = Some subject ->
  Contact.encodeURIComponent s2 = Some body ->
  Forall (fun c => Link.uri_delimiter c = false) (subject ++ body) /\
  count_occ N.eq_dec (Contact.mailto subject body) 0x3F = 1%nat /\
  count_occ N.eq_dec (Contact.mailto subject body) 0x26 = 1%nat /\
  count_occ N.eq_dec (Contact.mailto subject body) 0x3D = 2%nat /\
  count_occ N.eq_dec (Contact.mailto subject body) 0x23 = 0%nat /\
  count_occ N.eq_dec (Contact.mailto subject body) 0x20 = 0%nat.
Proof.
  intros H1 H2.
  apply (encode_not_delimiter_le (length s1)) in H1; [|lia].
  apply (encode_not_delimiter_le (length s2)) in H2; [|lia].
  split; [apply Forall_app; auto|].
  unfold Contact.mailto. rewrite !count_occ_app.
  rewrite !(count_no_delimiter _ subject), !(count_no_delimiter _ body)
    by (assumption || reflexivity).
  repeat split; reflexivity.
Qed.

Lemma mailto_link_delimiters_witness :
  count_occ N.eq_dec
    (Contact.mailto (lit "a%26b%3Dc%3F") (lit "x%20%23y")) 0x26 = 1%nat /\
  count_occ N.eq_dec
    (Contact.mailto (lit "a%26b%3Dc%3F") (lit "x%20%23y")) 0x3F = 1%nat.
Proof.
  pose proof (mailto_link_delimiters (lit "a&b=c?") (lit "x #y")
                (lit "a%26b%3Dc%3F") (lit "x%20%23y") eq_refl eq_refl) as H.
  destruct H as (_ & H1 & H2 & _). split; assumption.
Defined.

(** ** Theme store over time *)

Section ThemeHistory.

Lemma toggleTheme_icons st :
  themeIcons (toggleTheme st) =
    map (fun _ => if String.eqb (currentTheme (toggleTheme st)) "dark"
                  then "bi bi-sun" else "bi bi-moon-stars") (themeIcons st).
Proof. reflexivity. Qed.

Lemma toggleTheme_binary st :
  currentTheme (toggleTheme st) = "dark" \/ currentTheme (toggleTheme st) = "light".
Proof.
  rewrite toggleTheme_current. destruct (String.eqb (currentTheme st) "dark"); auto.
Qed.

Lemma iter_toggle_timeouts n st :
  length (Theme.timeouts (Nat.iter n toggleTheme st)) = (length (Theme.timeouts st) + n)%nat.
Proof.
  induction n as [|n IH]; simpl; [lia|].
  rewrite length_app, IH. simpl. lia.
Qed.

Lemma iter_toggle_icons n st :
  length (themeIcons (Nat.iter n toggleTheme st)) = length (themeIcons st).
Proof.
  induction n as [|n IH]; simpl; [reflexivity|]. now rewrite length_map.
Qed.

End ThemeHistory.

(** X13. The theme survives a reload: a fresh page set up over the storage
    left by [setTheme theme] starts with that theme, unless the theme was
    the empty string, which reloads as dark; and the storage left by a
    toggle always reloads as the theme the toggle applied. *)
Theorem theme_survives_reload (st : store) (theme : string) (icons : list string) :
  currentTheme (setupTheme (fresh (localStorage (setTheme theme st)) icons))
    = (if String.eqb theme "" then "dark" else theme) /\
  currentTheme (setupTheme (fresh (localStorage (toggleTheme st)) icons))
    = currentTheme (toggleTheme st).
Proof.
  split.
  - rewrite setupTheme_current. unfold getItem_or_dark. cbn [fresh localStorage].
    destruct (setTheme_persists theme st) as (_ & _ & ->). reflexivity.
  - rewrite setupTheme_current. unfold getItem_or_dark. cbn [fresh localStorage].
    destruct (toggleTheme_persists st) as (_ & ->).
    destruct (toggleTheme_binary st) as [-> | ->]; reflexivity.
Qed.

(** X14. After one or more toggles, from any state of the store, the theme
    is dark or light, the root attribute and the stored value equal it,
    every toggle icon shows the glyph that goes with it (sun for dark, moon
    for light), no icon was added or lost, two further toggles return to
    it, and every toggle has left one more 300 ms timer pending. *)
Theorem toggles_keep_store_consistent (st : store) (n : nat) :
  let st' := Nat.iter (S n) toggleTheme st in
  (currentTheme st' = "dark" \/ currentTheme st' = "light") /\
  data_theme st' = Some (currentTheme st') /\
  localStorage st' !! theme_key = Some (currentTheme st') /\
  Forall (fun icon => icon = if String.eqb (currentTheme st') "dark"
                             then "bi bi-sun" else "bi bi-moon-stars")
         (themeIcons st') /\
  length (themeIcons st') = length (themeIcons st) /\
  currentTheme (toggleTheme (toggleTheme st')) = currentTheme st' /\
  length (Theme.timeouts st') = (length (Theme.timeouts st) + S n)%nat /\
  Forall (fun t => fst t = 300%nat) (skipn (length (Theme.timeouts st)) (Theme.timeouts st')).
Proof.
  cbv zeta.
  change (Nat.iter (S n) toggleTheme st) with (toggleTheme (Nat.iter n toggleTheme st)).
  set (s := Nat.iter n toggleTheme st).
  destruct (toggleTheme_persists s) as [Hd Hp].
  split; [apply toggleTheme_binary|]. split; [exact Hd|]. split; [exact Hp|].
  split.
  { rewrite toggleTheme_icons. apply List.Forall_forall. intros icon Hi.
    apply List.in_map_iff in Hi. destruct Hi as (_ & <- & _). reflexivity. }
  split.
  { rewrite toggleTheme_icons, length_map. apply iter_toggle_icons. }
  split.
  { rewrite toggleTheme_twice.
    destruct (toggleTheme_binary s) as [-> | ->]; reflexivity. }
  split.
  { change (toggleTheme s) with (Nat.iter (S n) toggleTheme st).
    apply iter_toggle_timeouts. }
  subst s. clear Hd Hp. induction n as [|n IH].
  - simpl. rewrite skipn_app, skipn_all, Nat.sub_diag. simpl.
    constructor; [reflexivity|constructor].
  - remember (S n) as m.
    change (Theme.timeouts (toggleTheme (Nat.iter m toggleTheme st)))
      with (Theme.timeouts (Nat.iter m toggleTheme st) ++ [(300%nat, ClearBodyTransition)]).
    rewrite skipn_app. apply Forall_app. split.
    + subst m. exact IH.
    + rewrite iter_toggle_timeouts.
      replace (length (Theme.timeouts st) - (length (Theme.timeouts st) + m))%nat
        with 0%nat by lia.
      simpl. constructor; [reflexivity|constructor].
Qed.

(** ** Gallery rendering *)

Section GalleryOrder.

Lemma presentable_printable p key o :
  presentable p -> In key ["image"; "title"; "live"; "description"] ->
  get p key = inl o -> printable o = true.
Proof.
  intros [_ H] Hk Hg. destruct o as [v|]; [|reflexivity].
  unfold printable. now rewrite (H key v Hk Hg).
Qed.

Lemma get_nonnull p key : p <> JNull -> exists o, get p key = inl o.
Proof. intros Hp. destruct p; try congruence; simpl; eexists; reflexivity. Qed.

Lemma createProjectCard_presentable p i :
  presentable p ->
  exists c, createProjectCard p i = inl c /\ animationDelay_index c = i.
Proof.
  intros Hp. unfold createProjectCard.
  destruct (get_nonnull p "image" (proj1 Hp)) as (oi & Hi).
  destruct (get_nonnull p "title" (proj1 Hp)) as (ot & Ht).
  destruct (get_nonnull p "live" (proj1 Hp)) as (ol & Hl).
  destruct (get_nonnull p "description" (proj1 Hp)) as (od & Hd).
  rewrite Hi, Ht, Hl, Hd.
  rewrite (presentable_printable p "image" oi Hp) by (simpl; auto).
  rewrite (presentable_printable p "title" ot Hp) by (simpl; auto).
  rewrite (presentable_printable p "live" ol Hp) by (simpl; auto).
  rewrite (presentable_printable p "description" od Hp) by (simpl; auto).
  eexists. split; reflexivity.
Qed.

Lemma createProjectCard_null i : createProjectCard JNull i = inr TypeError.
Proof. reflexivity. Qed.

Lemma createProjectCard_error p i e :
  createProjectCard p i = inr e -> e = TypeError.
Proof.
  unfold createProjectCard.
  destruct (get p "image") as [oi|], (get p "title") as [ot|],
           (get p "live") as [ol|], (get p "description") as [od|];
    try congruence.
  destruct (printable oi && printable ot && printable ol && printable od);
    congruence.
Qed.

Lemma render_each_all ps : forall index g,
  Forall presentable ps ->
  exists cs,
    render_each ps index g =
      (Normal, mkGallery (projects g) (container g ++ cs) (console_errors g)) /\
    length cs = length ps /\
    forall k p, ps !! k = Some p ->
      exists c, cs !! k = Some c /\ createProjectCard p (index + k) = inl c /\
                animationDelay_index c = (index + k)%nat.
Proof.
  induction ps as [|p ps IH]; intros index g Hps.
  - exists []. simpl. rewrite app_nil_r. split; [now destruct g|].
    split; [reflexivity|]. intros k p Hk. discriminate.
  - inversion Hps as [|? ? Hp Hrest]; subst.
    destruct (createProjectCard_presentable p index Hp) as (c & Hc & Hi).
    cbn [render_each]. rewrite Hc.
    destruct (IH (S index)
                (mkGallery (projects g) (container g ++ [c]) (console_errors g)) Hrest)
      as (cs & Hr & Hlen & Hcs).
    exists (c :: cs). rewrite Hr. cbn [projects container console_errors].
    rewrite <- app_assoc. split; [reflexivity|]. split; [simpl; lia|].
    intros [|k] q Hk; simpl in Hk.
    + injection Hk as <-. exists c. rewrite Nat.add_0_r. auto.
    + destruct (Hcs k q Hk) as (c' & H1 & H2 & H3). exists c'.
      replace (index + S k)%nat with (S index + k)%nat by lia. auto.
Qed.

Lemma render_each_null ps : forall index g,
  In JNull ps ->
  exists g', render_each ps index g = (Throw TypeError, g') /\
             console_errors g' = console_errors g.
Proof.
  induction ps as [|p ps IH]; intros index g Hin; [destruct Hin|].
  cbn [render_each]. destruct (createProjectCard p index) as [c|e] eqn:Hc.
  - destruct Hin as [->|Hin]; [discriminate|].
    destruct (IH (S index)
                (mkGallery (projects g) (container g ++ [c]) (console_errors g)) Hin)
      as (g' & -> & Hg').
    exists g'. auto.
  - apply createProjectCard_error in Hc. subst e. exists g. auto.
Qed.

End GalleryOrder.

(** X15. When [this.projects] is an array whose entries are all
    presentable (none is [null], and none of the values read from an entry
    is an object with a [toString] member, or an array holding one, on which
    the template would throw), [renderProjects] ends normally and the
    container holds exactly one card per project, in the order of the array,
    whatever it held before: the card at position k is the one
    [createProjectCard] builds from project k with index k, so its entrance
    delay is k times 0.1 s. *)
Theorem renderProjects_in_order (g : gallery) (ps : list json) :
  projects g = JArr ps -> Forall presentable ps ->
  let r := renderProjects g in
  fst r = Normal /\
  length (container (snd r)) = length ps /\
  (forall k p, ps !! k = Some p ->
     exists c, container (snd r) !! k = Some c /\
               createProjectCard p k = inl c /\ animationDelay_index c = k) /\
  projects (snd r) = JArr ps /\ console_errors (snd r) = console_errors g.
Proof.
  intros Hp Hps. cbv zeta. unfold renderProjects. cbn [projects]. rewrite Hp.
  destruct (render_each_all ps 0 (mkGallery (JArr ps) [] (console_errors g)) Hps)
    as (cs & -> & Hlen & Hcs).
  cbn [fst snd container projects console_errors app].
  split; [reflexivity|]. split; [exact Hlen|]. split; [|auto].
  intros k p Hk. destruct (Hcs k p Hk) as (c & H1 & H2 & H3). exists c. auto.
Qed.

Lemma renderProjects_in_order_witness :
  let g := mkGallery (JArr [project "A" "a.png" "first" "https://a";
                            JObj [("title", JStr (lit "B"))];
                            JStr (lit "C")])
                     [fallback_card "old" "old.png" "old" "old" 7] [] in
  fst (renderProjects g) = Normal /\
  length (container (snd (renderProjects g))) = 3%nat.
Proof.
  cbv zeta.
  assert (Hps : Forall presentable
                  [project "A" "a.png" "first" "https://a";
                   JObj [("title", JStr (lit "B"))];
                   JStr (lit "C")]).
  { repeat constructor; try discriminate;
      intros key v [<-|[<-|[<-|[<-|[]]]]] H; vm_compute in H;
      first [discriminate H | injection H as <-; reflexivity]. }
  pose proof (renderProjects_in_order
    (mkGallery (JArr [project "A" "a.png" "first" "https://a";
                      JObj [("title", JStr (lit "B"))];
                      JStr (lit "C")])
               [fallback_card "old" "old.png" "old" "old" 7] [])
    _ eq_refl Hps) as H.
  cbv zeta in H. destruct H as (H1 & H2 & _). split; [exact H1|exact H2].
Defined.

(** A project whose title is an object with a [toString] member makes the
    template throw, so the whole list falls back to the built-in one. *)
Example loadProjects_unprintable_title :
  let v := JArr [JObj [("title", JObj [("toString", JNum "0")])]] in
  fst (renderProjects (mkGallery v [] [])) = Throw TypeError /\
  container (snd (loadProjects (Parsed v) (mkGallery (JArr []) [] [])))
  = container (snd (loadProjects FetchRejected (mkGallery (JArr []) [] []))).
Proof. cbv zeta. split; reflexivity. Qed.

(** X16. When the fetched JSON is not an array, or is an array with a
    [null] entry, [loadProjects] still ends normally: the TypeError raised
    while rendering is logged, and the gallery ends up exactly as after a
    rejected fetch, with the four built-in cards and [this.projects] set to
    the built-in list. *)
Theorem loadProjects_bad_data (g : gallery) (v : json) :
  (forall ps, v <> JArr ps) \/ (exists ps, v = JArr ps /\ In JNull ps) ->
  let r := loadProjects (Parsed v) g in
  fst r = Normal /\
  container (snd r) = container (snd (loadProjects FetchRejected g)) /\
  length (container (snd r)) = 4%nat /\
  projects (snd r) = JArr fallbackProjects /\
  console_errors (snd r) = console_errors g ++ [TypeError].
Proof.
  intros Hv. cbv zeta.
  assert (Hthrow : exists g',
            renderProjects (mkGallery v (container g) (console_errors g))
              = (Throw TypeError, g') /\ console_errors g' = console_errors g).
  { unfold renderProjects. cbn [projects console_errors].
    destruct Hv as [Hv | (ps & -> & Hin)].
    - destruct v as [| | | |ps|]; try (eexists; split; reflexivity).
      exfalso. now apply (Hv ps).
    - destruct (render_each_null ps 0
                  (mkGallery (JArr ps) [] (console_errors g)) Hin) as (g' & H1 & H2).
      exists g'. split; [exact H1|exact H2]. }
  destruct Hthrow as (g' & Hr & Hc).
  unfold loadProjects. rewrite Hr. unfold on_catch.
  rewrite !renderFallbackProjects_result. cbn [fst snd container projects console_errors].
  rewrite Hc. repeat split; reflexivity.
Qed.

Lemma loadProjects_bad_data_witness :
  let g := mkGallery (JArr []) [] [] in
  let v := JArr [project "A" "a.png" "first" "https://a"; JNull] in
  fst (loadProjects (Parsed v) g) = Normal /\
  length (container (snd (loadProjects (Parsed v) g))) = 4%nat /\
  console_errors (snd (loadProjects (Parsed v) g)) = [TypeError].
Proof.
  cbv zeta.
  pose proof (loadProjects_bad_data (mkGallery (JArr []) [] [])
                (JArr [project "A" "a.png" "first" "https://a"; JNull])) as H.
  cbv zeta in H. destruct H as (H1 & _ & H3 & _ & H5).
  - right. eexists. split; [reflexivity|]. right. left. reflexivity.
  - split; [exact H1|]. split; [exact H3|exact H5].
Defined.

(** ** Navigation highlighting, when a section is in view *)

Section NavHighlight.
Import Nav NavFrame.

Lemma same_but_active_refl a : same_but_active a a.
Proof.
  unfold same_but_active. split; [reflexivity|]. split; [reflexivity|].
  split; [reflexivity|]. intros tok _. reflexivity.
Qed.

Lemma same_but_active_trans a b c :
  same_but_active a b -> same_but_active b c -> same_but_active a c.
Proof.
  unfold same_but_active. intros (A1 & A2 & A3 & A4) (B1 & B2 & B3 & B4).
  split; [congruence|]. split; [congruence|]. split; [congruence|].
  intros tok Htok. rewrite (B4 tok Htok). now apply A4.
Qed.

Lemma remove_active_same (a : anchor) :
  same_but_active a (mkAnchor (is_a a) (href a) (remove "active" a)).
Proof.
  unfold same_but_active. simpl.
  split; [reflexivity|]. split; [reflexivity|]. split; [reflexivity|].
  intros tok Htok. rewrite elem_of_difference, elem_of_singleton. tauto.
Qed.

Lemma add_active_same (a : anchor) :
  same_but_active a (mkAnchor (is_a a) (href a) (add "active" a)).
Proof.
  unfold same_but_active. simpl.
  split; [reflexivity|]. split; [reflexivity|]. split; [reflexivity|].
  intros tok Htok. rewrite elem_of_union, elem_of_singleton. tauto.
Qed.

Lemma clear_nav_links_same els :
  Forall2 same_but_active els (clear_nav_links els).
Proof.
  induction els as [|a els IH]; simpl; constructor; [|exact IH].
  destruct (contains "nav-link" a);
    [apply remove_active_same|apply same_but_active_refl].
Qed.

Lemma add_active_first_same h els :
  Forall2 same_but_active els (add_active_first h els).
Proof.
  induction els as [|a els IH]; simpl; [constructor|].
  destruct (selects h a).
  - constructor; [apply add_active_same|].
    apply Forall2_same_length_lookup_2; [reflexivity|].
    intros i x y Hx Hy. rewrite Hx in Hy. injection Hy as <-.
    apply same_but_active_refl.
  - constructor; [apply same_but_active_refl|exact IH].
Qed.

Lemma Forall2_same_trans (l1 l2 l3 : list anchor) :
  Forall2 same_but_active l1 l2 -> Forall2 same_but_active l2 l3 ->
  Forall2 same_but_active l1 l3.
Proof.
  intros H. revert l3. induction H as [|a b l1 l2 Hab _ IH]; intros l3 H3.
  - inversion H3. constructor.
  - inversion H3 as [|? c ? l3' Hbc Hrest]; subst. constructor.
    + eapply same_but_active_trans; eauto.
    + now apply IH.
Qed.

Lemma Forall2_same_refl (l : list anchor) : Forall2 same_but_active l l.
Proof. induction l; constructor; [apply same_but_active_refl|assumption]. Qed.

Lemma visit_section_same scrollPos els s :
  Forall2 same_but_active els (visit_section scrollPos els s).
Proof.
  unfold visit_section. destruct (in_span scrollPos s); [|apply Forall2_same_refl].
  eapply Forall2_same_trans; [apply clear_nav_links_same|apply add_active_first_same].
Qed.

Lemma fold_visit_same scrollPos secs : forall els,
  Forall2 same_but_active els (fold_left (visit_section scrollPos) secs els).
Proof.
  induction secs as [|s secs IH]; intros els; simpl; [apply Forall2_same_refl|].
  eapply Forall2_same_trans; [apply visit_section_same|apply IH].
Qed.

Lemma selects_same h a a' : same_but_active a a' -> selects h a' = selects h a.
Proof. unfold selects. intros (-> & -> & _). reflexivity. Qed.

Lemma selects_carried h (l l' : list anchor) :
  Forall2 same_but_active l l' ->
  (exists a, In a l /\ selects h a = true) ->
  exists a', In a' l' /\ selects h a' = true.
Proof.
  induction 1 as [|a a' l l' Haa _ IH]; intros (x & Hx & Hs); [destruct Hx|].
  destruct Hx as [<-|Hx].
  - exists a'. split; [now left|]. now rewrite (selects_same h a a' Haa).
  - destruct IH as (y & Hy & Hsy); [eauto|]. exists y. split; [now right|assumption].
Qed.

Lemma cleared_not_active (els : list anchor) (a : anchor) :
  In a (clear_nav_links els) -> contains "nav-link" a = true ->
  "active" ∉ classList a.
Proof.
  unfold clear_nav_links. rewrite List.in_map_iff. intros (x & <- & _).
  destruct (contains "nav-link" x) eqn:Hx; [|congruence].
  intros _. simpl. rewrite elem_of_difference, elem_of_singleton. tauto.
Qed.

Lemma added_only_selected h (els : list anchor) : forall a : anchor,
  (forall x : anchor, In x els -> contains "nav-link" x = true -> "active" ∉ classList x) ->
  In a (add_active_first h els) -> contains "nav-link" a = true ->
  "active" ∈ classList a -> selects h a = true.
Proof.
  induction els as [|x els IH]; intros a Hclean Hin Hnav Hact; [destruct Hin|].
  simpl in Hin. destruct (selects h x) eqn:Hsel.
  - destruct Hin as [<-|Hin]; [exact Hsel|].
    exfalso. apply (Hclean a); auto. now right.
  - destruct Hin as [<-|Hin].
    + exfalso. apply (Hclean x); auto. now left.
    + apply IH; auto. intros y Hy. apply Hclean. now right.
Qed.

Lemma added_first_active h (els : list anchor) :
  (exists a, In a els /\ selects h a = true) ->
  exists a' : anchor, In a' (add_active_first h els) /\ selects h a' = true /\
             "active" ∈ classList a'.
Proof.
  induction els as [|x els IH]; intros (a & Ha & Hs); [destruct Ha|].
  simpl. destruct (selects h x) eqn:Hsel.
  - eexists. split; [now left|]. split; [exact Hsel|].
    simpl. apply elem_of_union. left. now apply elem_of_singleton.
  - destruct Ha as [<-|Ha]; [congruence|].
    destruct IH as (a' & H1 & H2 & H3); [eauto|]. exists a'. split; [now right|auto].
Qed.

End NavHighlight.

(** X17. [updateActiveNavItem] changes nothing but the token [active]:
    the sections and the scroll position are as before, no element is added
    or removed, and each element keeps its tag, its [href], its text and
    every class token other than [active]. *)
Theorem updateActiveNavItem_touches_only_active (d : Nav.document) :
  let d' := Nav.updateActiveNavItem d in
  Nav.sections d' = Nav.sections d /\ Nav.scrollY d' = Nav.scrollY d /\
  length (Nav.elements d') = length (Nav.elements d) /\
  Forall2 NavFrame.same_but_active (Nav.elements d) (Nav.elements d').
Proof.
  cbv zeta. unfold Nav.updateActiveNavItem. cbn [Nav.sections Nav.scrollY Nav.elements].
  pose proof (fold_visit_same (Nav.scrollY d + 100) (Nav.sections d) (Nav.elements d)) as H.
  split; [reflexivity|]. split; [reflexivity|]. split; [|exact H].
  symmetry. eapply Forall2_length. exact H.
Qed.

(** X18. On a page whose section ids are plain (free of double quote,
    backslash, line break and NUL, so that the selector built from an id
    means what it says): when a section's span contains [scrollY + 100] and
    no later section's does, then after [updateActiveNavItem] every element
    of class [nav-link] that is active is an [a] element whose [href] is [#]
    followed by that section's id; and if the page has such an [a] element
    at all, one of them is active. *)
Theorem updateActiveNavItem_highlights
    (d : Nav.document) (pre post : list Nav.section_el) (s : Nav.section_el) :
  Forall (fun t => NavFrame.plain_id (Nav.section_id t) = true) (Nav.sections d) ->
  Nav.sections d = pre ++ s :: post ->
  Nav.in_span (Nav.scrollY d + 100) s = true ->
  Forall (fun t => Nav.in_span (Nav.scrollY d + 100) t = false) post ->
  let h := "#" +:+ Nav.section_id s in
  let els' := Nav.elements (Nav.updateActiveNavItem d) in
  (forall a, In a els' -> contains "nav-link" (Nav.anchor_node a) = true ->
     "active" ∈ classList (Nav.anchor_node a) -> Nav.selects h a = true) /\
  ((exists a, In a (Nav.elements d) /\ Nav.selects h a = true) ->
   exists a', In a' els' /\ Nav.selects h a' = true /\
              "active" ∈ classList (Nav.anchor_node a')).
Proof.
  intros _ Hsec Hin Hpost. cbv zeta.
  unfold Nav.updateActiveNavItem. cbn [Nav.elements]. rewrite Hsec.
  rewrite fold_left_app. cbn [fold_left].
  rewrite fold_visit_outside by exact Hpost.
  set (els1 := fold_left _ pre (Nav.elements d)).
  unfold Nav.visit_section. rewrite Hin. split.
  - intros a Ha Hnav Hact. apply (added_only_selected _ (Nav.clear_nav_links els1)); auto.
    intros x Hx. now apply (cleared_not_active els1).
  - intros Hex. apply added_first_active.
    apply (selects_carried _ els1); [apply clear_nav_links_same|].
    apply (selects_carried _ (Nav.elements d)); [apply fold_visit_same|exact Hex].
Qed.

Lemma updateActiveNavItem_highlights_witness :
  let d := Nav.mkDocument
             [Nav.mkSection "about" 600 400; Nav.mkSection "contact" 1000 300]
             [Nav.mkAnchor true (Some "#about") (mkElement {["nav-link"; "active"]} []);
              Nav.mkAnchor true (Some "#contact") (mkElement {["nav-link"]} [])]
             950 in
  exists a', In a' (Nav.elements (Nav.updateActiveNavItem d)) /\
             Nav.selects "#contact" a' = true /\
             "active" ∈ classList (Nav.anchor_node a').
Proof.
  cbv zeta.
  apply (proj2 (updateActiveNavItem_highlights
    (Nav.mkDocument
       [Nav.mkSection "about" 600 400; Nav.mkSection "contact" 1000 300]
       [Nav.mkAnchor true (Some "#about") (mkElement {["nav-link"; "active"]} []);
        Nav.mkAnchor true (Some "#contact") (mkElement {["nav-link"]} [])]
       950)
    [Nav.mkSection "about" 600 400] [] (Nav.mkSection "contact" 1000 300)
    ltac:(repeat constructor) eq_refl eq_refl ltac:(constructor))).
  eexists. split; [right; left; reflexivity|reflexivity].
Defined.

(** ** Particle scene and scroll updates over time *)

Section SceneHistory.
Import Scene.

Lemma handleScrollEffects_keeps w :
  canvas (handleScrollEffects w) = canvas w /\
  resize_listener (handleScrollEffects w) = resize_listener w /\
  (webglScene w = None -> webglScene (handleScrollEffects w) = None).
Proof.
  unfold handleScrollEffects.
  set (w1 := match hero w with Some _ => _ | None => _ end).
  assert (Hw1 : canvas w1 = canvas w /\ resize_listener w1 = resize_listener w /\
                webglScene w1 = webglScene w).
  { subst w1. destruct (hero w); [destruct (_ <? _)%Z|]; auto. }
  destruct Hw1 as (C & R & S). rewrite <- C, <- R, <- S. clearbody w1.
  destruct (webglScene w1) as [t|] eqn:Ht.
  - destruct (isWebGLEnabled w1); unfold set_webglScene; cbn; rewrite ?Ht;
      (split; [reflexivity|split; [reflexivity|discriminate]]).
  - rewrite Ht. auto.
Qed.

End SceneHistory.

Section SceneOffFacts.
Import Scene SceneOff.

Lemma run_callback_off c0 w cb : off_for_good c0 w -> off_for_good c0 (run_callback w cb).
Proof.
  unfold off_for_good. intros (E & S & R & C). destruct cb; cbn [run_callback].
  - unfold animate. rewrite E. auto.
  - destruct (handleScrollEffects_keeps w) as (C' & R' & S').
    destruct (handleScrollEffects_still w) as (_ & _ & E' & _).
    unfold set_ticking. cbn. rewrite C', R', E', (S' S). auto.
Qed.

Lemma run_callbacks_off c0 q : forall w,
  off_for_good c0 w -> off_for_good c0 (fold_left run_callback q w).
Proof.
  induction q as [|cb q IH]; intros w H; cbn [fold_left]; [assumption|].
  apply IH. now apply run_callback_off.
Qed.

Lemma step_off c0 w e : off_for_good c0 w -> off_for_good c0 (step w e).
Proof.
  intros H. destruct e as [y|width height|hide|]; unfold step.
  - destruct H as (E & S & R & C). unfold off_for_good. setters.
    destruct (scroll_listener w); [|auto].
    unfold scroll_handler. setters. destruct (ticking w); auto.
  - destruct H as (E & S & R & C). unfold off_for_good. setters.
    rewrite R. auto.
  - destruct H as (E & S & R & C). unfold off_for_good, visibility_handler. setters.
    rewrite E, andb_false_r. auto.
  - apply run_callbacks_off. exact H.
Qed.

Lemma run_off c0 evs : forall w, off_for_good c0 w -> off_for_good c0 (run evs w).
Proof.
  induction evs as [|e evs IH]; intros w H; [assumption|].
  rewrite run_cons. apply IH. now apply step_off.
Qed.

Lemma wide_resize_step w width height :
  isWebGLEnabled w = true -> (768 < width)%Z ->
  webglScene (step w (Resize width height)) = webglScene w /\
  canvas (step w (Resize width height)) = canvas w /\
  isWebGLEnabled (step w (Resize width height)) = true.
Proof.
  intros E Hw. unfold step. setters. destruct (resize_listener w); [|auto].
  unfold resize_handler. setters.
  destruct (Z.leb_spec width 768); [lia|]. rewrite E. cbn. auto.
Qed.

End SceneOffFacts.

(** X19. The particle animation never runs: [animate()] is first called
    while [isWebGLEnabled] is still false and nothing calls it again, so
    after start-up and any events no animation callback is ever pending and
    the renderer has drawn no frame. *)
Theorem particle_loop_never_runs
    (width height : Z) (supported : bool) (canvas0 : option string) (hero0 : bool)
    (evs : list Scene.event) :
  let w := Scene.run evs (Scene.init_tail (Scene.loaded width height supported canvas0 hero0)) in
  Scene.pending Scene.Animate w = 0%nat /\ Scene.frames_drawn w = 0%nat.
Proof. cbv zeta. apply run_still, init_tail_still. Qed.

(** X20. A page that starts 768 pixels wide or narrower, or without WebGL
    support, never gets the scene: whatever events follow, resizes to a wide
    window included, the flag stays off, no scene is built, no resize
    listener exists and the canvas keeps its display style. *)
Theorem narrow_start_never_enables
    (width height : Z) (supported : bool) (canvas0 : option string) (hero0 : bool)
    (evs : list Scene.event) :
  (width <= 768)%Z \/ supported = false ->
  let w := Scene.run evs (Scene.init_tail (Scene.loaded width height supported canvas0 hero0)) in
  Scene.isWebGLEnabled w = false /\ Scene.webglScene w = None /\
  Scene.resize_listener w = false /\ Scene.canvas w = canvas0.
Proof.
  intros H. cbv zeta. apply (run_off canvas0).
  unfold SceneOff.off_for_good, Scene.init_tail, Scene.setupWebGL, Scene.loaded. cbn.
  assert (E : (768 <? width)%Z && supported = false).
  { destruct H as [H| ->]; [|apply andb_false_r].
    destruct (Z.ltb_spec 768 width); [lia|reflexivity]. }
  rewrite E. cbn. auto.
Qed.

Lemma narrow_start_never_enables_witness :
  let w := Scene.run [Scene.Resize 1920 1080; Scene.Frame; Scene.Scroll 40; Scene.Frame]
             (Scene.init_tail (Scene.loaded 600 800 true (Some "") true)) in
  Scene.isWebGLEnabled w = false /\ Scene.webglScene w = None /\
  Scene.resize_listener w = false /\ Scene.canvas w = Some "".
Proof.
  cbv zeta. apply narrow_start_never_enables. left. lia.
Defined.

(** X21. While the scene is enabled, resizing the window to any size wider
    than 768 pixels changes neither the camera nor the renderer: aspect
    ratio and render size stay those computed earlier, however often the
    window is resized. *)
Theorem wide_resize_keeps_aspect (w : Scene.world) (sizes : list (Z * Z)) :
  Scene.isWebGLEnabled w = true ->
  Forall (fun s => (768 < fst s)%Z) sizes ->
  let w' := Scene.run (map (fun s => Scene.Resize (fst s) (snd s)) sizes) w in
  Scene.webglScene w' = Scene.webglScene w /\ Scene.canvas w' = Scene.canvas w /\
  Scene.isWebGLEnabled w' = true.
Proof.
  intros E Hs. cbv zeta. revert w E.
  induction Hs as [|s sizes Hw _ IH]; intros w E; [auto|].
  cbn [map]. rewrite run_cons.
  destruct (wide_resize_step w (fst s) (snd s) E Hw) as (S1 & C1 & E1).
  destruct (IH _ E1) as (S2 & C2 & E2).
  rewrite S2, C2, S1, C1. auto.
Qed.

Lemma wide_resize_keeps_aspect_witness :
  let w := Scene.init_tail (Scene.loaded 1024 768 true (Some "") true) in
  let w' := Scene.run [Scene.Resize 1920 1080; Scene.Resize 800 1200] w in
  Scene.aspect <$> Scene.webglScene w' = Some (1024, 768)%Z /\
  Scene.isWebGLEnabled w' = true.
Proof.
  cbv zeta.
  destruct (wide_resize_keeps_aspect
              (Scene.init_tail (Scene.loaded 1024 768 true (Some "") true))
              [(1920, 1080); (800, 1200)]%Z eq_refl
              ltac:(repeat constructor)) as (H1 & _ & H3).
  split; [|exact H3].
  change (Scene.run [Scene.Resize 1920 1080; Scene.Resize 800 1200]
            (Scene.init_tail (Scene.loaded 1024 768 true (Some "") true)))
    with (Scene.run (map (fun s => Scene.Resize (fst s) (snd s))
                       [(1920, 1080); (800, 1200)]%Z)
            (Scene.init_tail (Scene.loaded 1024 768 true (Some "") true))).
  rewrite H1. reflexivity.
Defined.

Section LastScroll.
Import Scene.

Lemma frame_empties_queue w : still w -> rafQueue (step w Frame) = [].
Proof.
  intros [Hq _]. unfold step.
  destruct (run_scroll_callbacks (rafQueue w) (set_rafQueue [] w)
              (pending_none_exists _ _ Hq)) as (-> & _).
  reflexivity.
Qed.

(** Once the guard is set, further scroll events only move the offset. *)
Lemma scrolls_while_ticking ys : forall w,
  scroll_listener w = true -> ticking w = true ->
  run (map Scroll ys) w =
    set_win (mkWindow (innerWidth (win w)) (innerHeight (win w))
               (List.last ys (pageYOffset (win w))) (hidden (win w))
               (webglSupported (win w)) (portfolioApp (win w))) w.
Proof.
  induction ys as [|y ys IH]; intros w Hl Ht.
  - unfold set_win. cbn. now destruct w as [[]].
  - cbn [map]. rewrite run_cons.
    assert (Hs : step w (Scroll y) =
              set_win (mkWindow (innerWidth (win w)) (innerHeight (win w)) y
                         (hidden (win w)) (webglSupported (win w))
                         (portfolioApp (win w))) w).
    { unfold step. setters. rewrite Hl. unfold scroll_handler. setters.
      now rewrite Ht. }
    rewrite Hs, IH by (unfold set_win; cbn; assumption).
    unfold set_win. cbn. f_equal. f_equal.
    destruct ys as [|y' ys]; [reflexivity|].
    change (List.last (y :: y' :: ys) (pageYOffset (win w)))
      with (List.last (y' :: ys) (pageYOffset (win w))).
    apply last_default.
Qed.

Lemma first_scroll w y :
  scroll_listener w = true -> ticking w = false -> rafQueue w = [] ->
  step w (Scroll y) =
    mkWorld (mkWindow (innerWidth (win w)) (innerHeight (win w)) y (hidden (win w))
               (webglSupported (win w)) (portfolioApp (win w)))
            (canvas w) (hero w) (isWebGLEnabled w) (webglScene w)
            (resize_listener w) true true [ScrollUpdate].
Proof.
  intros Hl Ht Hq. unfold step. setters. rewrite Hl. unfold scroll_handler. setters.
  now rewrite Ht, Hq.
Qed.

Lemma hero_after_update w :
  hero (set_ticking false (handleScrollEffects w)) =
    match hero w with
    | Some _ =>
        if (pageYOffset (win w) <? innerHeight (win w))%Z
        then Some (Some (pageYOffset (win w))) else hero w
    | None => None
    end.
Proof.
  unfold handleScrollEffects.
  destruct (hero w) as [o|] eqn:Hh.
  - destruct (pageYOffset (win w) <? innerHeight (win w))%Z; setters.
    + destruct (webglScene w); [destruct (isWebGLEnabled w)|]; reflexivity.
    + destruct (webglScene w); [destruct (isWebGLEnabled w)|]; setters; now rewrite ?Hh.
  - setters. destruct (webglScene w); [destruct (isWebGLEnabled w)|]; setters;
      now rewrite ?Hh.
Qed.

End LastScroll.

(** X22. The throttled update works from the latest scroll offset: after
    a frame, any burst of scroll events followed by the next frame moves the
    hero section by the offset of the last event of the burst, provided the
    page has a hero section and that offset is less than the window height;
    otherwise the hero transform stays as it was. One update runs, and the
    guard is clear again. *)
Theorem scroll_update_uses_last_offset
    (width height : Z) (supported : bool) (canvas0 : option string) (hero0 : bool)
    (evs : list Scene.event) (ys : list Z) (y : Z) :
  let w := Scene.step
             (Scene.run evs
                (Scene.init_tail (Scene.loaded width height supported canvas0 hero0)))
             Scene.Frame in
  let w' := Scene.step (Scene.run (map Scene.Scroll (ys ++ [y])) w) Scene.Frame in
  Scene.hero w' =
    match Scene.hero w with
    | Some _ =>
        if (y <? Scene.innerHeight (Scene.win w))%Z then Some (Some y) else Scene.hero w
    | None => None
    end /\
  Scene.pageYOffset (Scene.win w') = y /\
  Scene.ticking w' = false /\ Scene.rafQueue w' = [].
Proof.
  cbv zeta.
  set (w0 := Scene.run evs _).
  assert (Hstill : Scene.still w0) by apply run_still, init_tail_still.
  assert (Hguard : Scene.guard_consistent w0)
    by apply run_guard, init_tail_guard.
  assert (Hl0 : Scene.scroll_listener w0 = true).
  { subst w0. rewrite run_listener. apply init_tail_guard. }
  set (w := Scene.step w0 Scene.Frame).
  assert (Hq : Scene.rafQueue w = []) by now apply frame_empties_queue.
  assert (Ht : Scene.ticking w = false) by now apply frame_idle.
  assert (Hl : Scene.scroll_listener w = true) by (subst w; now rewrite step_listener).
  clearbody w. clear Hstill Hguard Hl0 w0.
  assert (Hrun : Scene.run (map Scene.Scroll (ys ++ [y])) w =
            Scene.mkWorld
              (Scene.mkWindow (Scene.innerWidth (Scene.win w))
                 (Scene.innerHeight (Scene.win w)) y (Scene.hidden (Scene.win w))
                 (Scene.webglSupported (Scene.win w)) (Scene.portfolioApp (Scene.win w)))
              (Scene.canvas w) (Scene.hero w) (Scene.isWebGLEnabled w)
              (Scene.webglScene w) (Scene.resize_listener w) true true
              [Scene.ScrollUpdate]).
  { destruct ys as [|y0 ys]; cbn [app map]; rewrite run_cons.
    - now apply first_scroll.
    - rewrite (first_scroll w y0 Hl Ht Hq).
      rewrite scrolls_while_ticking by reflexivity.
      unfold Scene.set_win. cbn. rewrite last_last. reflexivity. }
  rewrite Hrun. unfold Scene.step. cbn [Scene.rafQueue fold_left Scene.run_callback].
  rewrite hero_after_update.
  destruct (handleScrollEffects_still
              (Scene.set_rafQueue []
                 (Scene.mkWorld
                    (Scene.mkWindow (Scene.innerWidth (Scene.win w))
                       (Scene.innerHeight (Scene.win w)) y (Scene.hidden (Scene.win w))
                       (Scene.webglSupported (Scene.win w))
                       (Scene.portfolioApp (Scene.win w)))
                    (Scene.canvas w) (Scene.hero w) (Scene.isWebGLEnabled w)
                    (Scene.webglScene w) (Scene.resize_listener w) true true
                    [Scene.ScrollUpdate])))
    as (Q & _ & _ & W).
  unfold Scene.set_ticking. cbn [Scene.win Scene.ticking Scene.rafQueue].
  rewrite Q, W. unfold Scene.set_rafQueue. cbn. auto.
Qed.

Example scroll_update_last_of_three :
  Scene.hero
    (Scene.run [Scene.Scroll 10; Scene.Scroll 250; Scene.Scroll 120; Scene.Frame]
       (Scene.init_tail (Scene.loaded 1024 768 true (Some "") true)))
  = Some (Some 120%Z).
Proof. reflexivity. Qed.

(** ** Reveal on scroll *)

Section RevealFacts.
Import Reveal.

Lemma animateSkillBar_targets i t st : targets (animateSkillBar i t st) = targets st.
Proof. unfold animateSkillBar. now destruct (progressBar t). Qed.

Lemma reveal_targets st e :
  targets (reveal st e) =
    if isIntersecting e
    then match (targets st !! target_of e : option target) with
         | Some t => <[target_of e := revealed t]> (targets st)
         | None => targets st
         end
    else targets st.
Proof.
  unfold reveal. destruct (isIntersecting e); [|reflexivity].
  destruct (targets st !! target_of e) as [t|]; [|reflexivity].
  cbv zeta. destruct (contains "skill-item" (revealed t)); [|reflexivity].
  now rewrite animateSkillBar_targets.
Qed.

Lemma revealed_classes (t : target) tok :
  tok ∈ classList (revealed t) <-> tok ∈ classList t \/ tok = "fade-in-up".
Proof.
  unfold revealed, add. simpl. rewrite elem_of_union, elem_of_singleton. tauto.
Qed.

(** What one entry does to the element at position [i]. *)
Lemma reveal_lookup st e i (t : target) :
  targets st !! i = Some t ->
  exists t' : target,
    targets (reveal st e) !! i = Some t' /\
    progressBar t' = progressBar t /\ data_skill t' = data_skill t /\
    textContent t' = textContent t /\
    forall tok, tok ∈ classList t' <->
      tok ∈ classList t \/
      (tok = "fade-in-up" /\ isIntersecting e = true /\ target_of e = i).
Proof.
  intros Hi. rewrite reveal_targets.
  destruct (isIntersecting e) eqn:He.
  - destruct (decide (target_of e = i)) as [->|Hne].
    + rewrite Hi. exists (revealed t). split.
      { apply list_lookup_insert_eq. now apply lookup_lt_Some in Hi. }
      split; [reflexivity|]. split; [reflexivity|]. split; [reflexivity|].
      intros tok. rewrite revealed_classes. tauto.
    + exists t. split.
      { destruct (targets st !! target_of e) as [u|]; [|exact Hi].
        now rewrite list_lookup_insert_ne. }
      split; [reflexivity|]. split; [reflexivity|]. split; [reflexivity|].
      intros tok. split; [auto|]. intros [H|(_ & _ & H)]; [assumption|congruence].
  - exists t. split; [exact Hi|].
    split; [reflexivity|]. split; [reflexivity|]. split; [reflexivity|].
    intros tok. split; [auto|]. intros [H|(_ & H & _)]; [assumption|discriminate].
Qed.

Lemma observe_lookup entries : forall st i (t : target),
  targets st !! i = Some t ->
  exists t' : target,
    targets (observe entries st) !! i = Some t' /\
    progressBar t' = progressBar t /\ data_skill t' = data_skill t /\
    textContent t' = textContent t /\
    forall tok, tok ∈ classList t' <->
      tok ∈ classList t \/ (tok = "fade-in-up" /\ seen entries i).
Proof.
  induction entries as [|e entries IH]; intros st i t Hi.
  - exists t. split; [exact Hi|]. repeat (split; [reflexivity|]).
    intros tok. split; [auto|]. intros [H|(_ & e & [] & _)]. exact H.
  - destruct (reveal_lookup st e i t Hi) as (t1 & H1 & P1 & D1 & T1 & C1).
    destruct (IH (reveal st e) i t1 H1) as (t2 & H2 & P2 & D2 & T2 & C2).
    exists t2. split; [exact H2|].
    split; [congruence|]. split; [congruence|]. split; [congruence|].
    intros tok. rewrite C2, C1. unfold seen. split.
    + intros [[H|(F & I & E)]|(F & e' & He' & I & E)].
      * now left.
      * right. split; [exact F|]. exists e. split; [now left|auto].
      * right. split; [exact F|]. exists e'. split; [now right|auto].
    + intros [H|(F & e' & [<-|He'] & I & E)].
      * left. now left.
      * left. right. auto.
      * right. split; [exact F|]. exists e'. auto.
Qed.

Lemma observe_length entries : forall st,
  length (targets (observe entries st)) = length (targets st).
Proof.
  induction entries as [|e entries IH]; intros st; [reflexivity|].
  cbn [observe fold_left]. change (fold_left reveal entries (reveal st e))
    with (observe entries (reveal st e)).
  rewrite IH, reveal_targets. destruct (isIntersecting e); [|reflexivity].
  destruct (targets st !! target_of e); [apply length_insert|reflexivity].
Qed.

Lemma target_eq (t u : target) :
  progressBar t = progressBar u -> data_skill t = data_skill u ->
  textContent t = textContent u ->
  (forall tok, tok ∈ classList t <-> tok ∈ classList u) -> t = u.
Proof.
  destruct t as [[ct tt] pt dt], u as [[cu tu] pu du]. simpl.
  intros -> -> -> H. f_equal. f_equal. apply set_eq. exact H.
Qed.

End RevealFacts.

(** X23. The reveal callback only ever adds the class [fade-in-up], and
    adds it exactly to the elements that some entry of the batch reports as
    intersecting: every observed element keeps its other classes, its
    progress bar, its skill level and its text, and none is added or lost.
    Delivering the same batch a second time changes no element. *)
Theorem reveal_is_monotone (entries : list Reveal.entry) (st : Reveal.stage) :
  length (Reveal.targets (Reveal.observe entries st)) = length (Reveal.targets st) /\
  (forall i t, Reveal.targets st !! i = Some t ->
     exists t', Reveal.targets (Reveal.observe entries st) !! i = Some t' /\
       Reveal.progressBar t' = Reveal.progressBar t /\
       Reveal.data_skill t' = Reveal.data_skill t /\
       textContent (Reveal.target_node t') = textContent (Reveal.target_node t) /\
       forall tok, tok ∈ classList (Reveal.target_node t') <->
         tok ∈ classList (Reveal.target_node t) \/
         (tok = "fade-in-up" /\ Reveal.seen entries i)) /\
  Reveal.targets (Reveal.observe entries (Reveal.observe entries st))
    = Reveal.targets (Reveal.observe entries st).
Proof.
  split; [apply observe_length|]. split; [intros i t; apply observe_lookup|].
  apply list_eq. intros i.
  destruct (Reveal.targets (Reveal.observe entries st) !! i) as [t1|] eqn:H1.
  - destruct (observe_lookup entries _ i t1 H1) as (t2 & H2 & P & D & T & C).
    rewrite H2. f_equal. apply target_eq; auto.
    intros tok. rewrite C. split; [|auto].
    intros [H|(-> & Hseen)]; [exact H|].
    assert (Hlt : (i < length (Reveal.targets st))%nat).
    { rewrite <- (observe_length entries). now apply lookup_lt_Some in H1. }
    apply lookup_lt_is_Some in Hlt. destruct Hlt as (t0 & H0).
    destruct (observe_lookup entries st i t0 H0) as (t1' & H1' & _ & _ & _ & C').
    rewrite H1 in H1'. injection H1' as <-. apply C'. right. auto.
  - apply lookup_ge_None. apply lookup_ge_None in H1.
    rewrite observe_length. exact H1.
Qed.

Section SkillBars.
Import Reveal.

Lemma contains_revealed (t : target) :
  contains "skill-item" (revealed t) = contains "skill-item" t.
Proof.
  unfold contains. apply bool_decide_ext. rewrite revealed_classes.
  split; [|auto]. intros [H|H]; [exact H|discriminate].
Qed.

Lemma reveal_timeouts st e :
  exists new,
    timeouts (reveal st e) = timeouts st ++ new /\
    length new = (if wants_bar st e then 1 else 0)%nat /\
    Forall (fun t => delay t = 300%nat /\ bar_of t = target_of e) new.
Proof.
  unfold reveal, wants_bar. destruct (isIntersecting e); cbn [andb].
  - destruct (targets st !! target_of e) as [t|].
    + cbv zeta. rewrite contains_revealed.
      destruct (contains "skill-item" t); cbn [andb].
      * unfold animateSkillBar. cbn [revealed progressBar data_skill].
        destruct (progressBar t).
        -- eexists. split; [reflexivity|]. split; [reflexivity|].
           constructor; [split; reflexivity|constructor].
        -- exists []. rewrite app_nil_r. auto.
      * exists []. rewrite app_nil_r. auto.
    + exists []. rewrite app_nil_r. auto.
  - exists []. rewrite app_nil_r. auto.
Qed.

Lemma wants_bar_reveal st e' e : wants_bar (reveal st e') e = wants_bar st e.
Proof.
  unfold wants_bar. f_equal. rewrite reveal_targets.
  destruct (isIntersecting e'); [|reflexivity].
  destruct (targets st !! target_of e') as [t|] eqn:Ht; [|reflexivity].
  destruct (decide (target_of e' = target_of e)) as [E|Hne].
  - rewrite <- E, Ht.
    rewrite list_lookup_insert_eq by now apply lookup_lt_Some in Ht.
    now rewrite contains_revealed.
  - now rewrite list_lookup_insert_ne.
Qed.

Lemma observe_timeouts entries : forall st,
  exists new,
    timeouts (observe entries st) = timeouts st ++ new /\
    length new = length (List.filter (wants_bar st) entries) /\
    Forall (fun t => delay t = 300%nat) new.
Proof.
  induction entries as [|e entries IH]; intros st.
  - exists []. rewrite app_nil_r. auto.
  - change (observe (e :: entries) st) with (observe entries (reveal st e)).
    destruct (reveal_timeouts st e) as (n1 & H1 & L1 & F1).
    destruct (IH (reveal st e)) as (n2 & H2 & L2 & F2).
    exists (n1 ++ n2). rewrite H2, H1, <- app_assoc. split; [reflexivity|].
    split.
    + rewrite length_app, L1, L2. cbn [List.filter].
      rewrite (filter_ext _ _ (wants_bar_reveal st e)).
      destruct (wants_bar st e); reflexivity.
    + apply Forall_app. split; [|exact F2].
      eapply List.Forall_impl; [|exact F1]. now intros t [H _].
Qed.

Lemma wants_bar_observe entries : forall st e,
  wants_bar (observe entries st) e = wants_bar st e.
Proof.
  induction entries as [|e' entries IH]; intros st e; [reflexivity|].
  change (observe (e' :: entries) st) with (observe entries (reveal st e')).
  now rewrite IH, wants_bar_reveal.
Qed.

End SkillBars.

(** X24. For every intersecting entry whose target is a skill item with a
    progress bar, and for no other, the reveal callback schedules one bar
    animation 300 ms ahead; timers already pending are kept. Nothing
    remembers that a bar was already scheduled: delivering the same batch
    again schedules as many timers once more. *)
Theorem skill_bar_timers (entries : list Reveal.entry) (st : Reveal.stage) :
  let n := length (List.filter (Reveal.wants_bar st) entries) in
  (exists new,
     Reveal.timeouts (Reveal.observe entries st) = Reveal.timeouts st ++ new /\
     length new = n /\ Forall (fun t => Reveal.delay t = 300%nat) new) /\
  length (Reveal.timeouts (Reveal.observe entries (Reveal.observe entries st)))
    = (length (Reveal.timeouts st) + 2 * n)%nat.
Proof.
  cbv zeta. split; [apply observe_timeouts|].
  destruct (observe_timeouts entries st) as (n1 & H1 & L1 & _).
  destruct (observe_timeouts entries (Reveal.observe entries st)) as (n2 & H2 & L2 & _).
  rewrite H2, H1, !length_app, L1, L2.
  rewrite (filter_ext _ _ (wants_bar_observe entries st)). lia.
Qed.

Example skill_bar_scheduled_twice :
  let skill := Reveal.mkTarget (mkElement {["skill-item"]} []) (Some "0%") (Some "85") in
  let card := Reveal.mkTarget (mkElement {["glass-card"]} []) None None in
  let batch := [Reveal.mkEntry true 0; Reveal.mkEntry true 1; Reveal.mkEntry false 0] in
  Reveal.timeouts
    (Reveal.observe batch (Reveal.observe batch (Reveal.mkStage [skill; card] [])))
  = [Reveal.mkBarTimer 300 0 "85%"; Reveal.mkBarTimer 300 0 "85%"].
Proof. reflexivity. Qed.

Section MissingCanvas.
Import Scene SceneOff.

Lemma run_scroll_callbacks_on q : forall w,
  existsb (same_callback Animate) q = false ->
  rafQueue w = [] -> on_without_scene w ->
  on_without_scene (fold_left run_callback q w).
Proof.
  induction q as [|cb q IH]; intros w Hq Hw H; cbn [fold_left]; [assumption|].
  destruct cb; [discriminate|]. cbn [existsb same_callback orb] in Hq.
  destruct (handleScrollEffects_keeps w) as (_ & R' & S').
  destruct (handleScrollEffects_still w) as (Q' & _ & E' & W').
  apply IH; [exact Hq| |].
  - cbn [run_callback]. unfold set_ticking. cbn. now rewrite Q'.
  - destruct H as (E & S & R & P & A). unfold on_without_scene, pending in *.
    cbn [run_callback]. unfold set_ticking. cbn.
    rewrite E', R', W', Q', (S' S). auto.
Qed.

Lemma step_on w e : on_without_scene w -> on_without_scene (step w e).
Proof.
  intros H. destruct e as [y|width height|hide|]; unfold step.
  - destruct H as (E & S & R & P & A). unfold on_without_scene, pending in *. setters.
    destruct (scroll_listener w); [|auto].
    unfold scroll_handler. setters. destruct (ticking w); setters; [auto|].
    rewrite List.filter_app, length_app, A. auto.
  - destruct H as (E & S & R & P & A). unfold on_without_scene, pending in *. setters.
    rewrite R. auto.
  - destruct H as (E & S & R & P & A).
    unfold on_without_scene, pending, visibility_handler in *. setters.
    rewrite P. cbn. auto.
  - pose proof H as (E & S & R & P & A).
    apply run_scroll_callbacks_on.
    + now apply pending_none_exists.
    + reflexivity.
    + unfold on_without_scene, pending, set_rafQueue in *. cbn. auto.
Qed.

Lemma run_on evs : forall w, on_without_scene w -> on_without_scene (run evs w).
Proof.
  induction evs as [|e evs IH]; intros w H; [assumption|].
  rewrite run_cons. apply IH. now apply step_on.
Qed.

End MissingCanvas.

(** X25. On a wide, WebGL-capable page that has no [#webgl-canvas]
    element, [initWebGL] returns at once but [setupWebGL] still sets the
    flag: [isWebGLEnabled] is true from then on, whatever events follow
    (narrow resizes included), although no scene exists and no resize
    listener was installed. *)
Theorem missing_canvas_leaves_flag_on
    (width height : Z) (hero0 : bool) (evs : list Scene.event) :
  (768 < width)%Z ->
  let w := Scene.run evs (Scene.init_tail (Scene.loaded width height true None hero0)) in
  Scene.isWebGLEnabled w = true /\ Scene.webglScene w = None /\
  Scene.resize_listener w = false.
Proof.
  intros Hw. cbv zeta.
  assert (H : SceneOff.on_without_scene
                (Scene.run evs (Scene.init_tail (Scene.loaded width height true None hero0)))).
  { apply run_on.
    unfold SceneOff.on_without_scene, Scene.init_tail, Scene.setupWebGL, Scene.loaded,
           Scene.pending.
    setters. destruct (Z.ltb_spec 768 width); [|lia]. cbn. auto. }
  destruct H as (E & S & R & _). auto.
Qed.

Lemma missing_canvas_leaves_flag_on_witness :
  let w := Scene.run [Scene.Resize 500 800; Scene.Scroll 10; Scene.Frame]
             (Scene.init_tail (Scene.loaded 1024 768 true None true)) in
  Scene.isWebGLEnabled w = true /\ Scene.webglScene w = None /\
  Scene.resize_listener w = false.
Proof.
  cbv zeta. apply missing_canvas_leaves_flag_on. lia.
Defined.
